(** * Indexing-and-retrieval core of the coding assistant

    A shallow embedding of the chunker ([CodeService._chunk_code]), of the
    embedding gateway ([EmbeddingService]), of the vector index wrapper
    ([VectorService]) and of the two pipelines of [CodeService]
    ([index_project], [_get_relevant_context]), followed by the properties
    the specification states about them.  Part I is the program, Part II
    the definitions the properties are stated with, Part III the lemmas and
    theorems. *)

From Stdlib Require Import ZArith List String Ascii Bool Lia PrimFloat.
From Stdlib Require Import Reals Lra Sorted Floats.
From stdpp Require Import gmap strings list.

Local Open Scope Z_scope.

(** * Part I: the program *)

(** ** Exceptions and calls to the providers

    A computation returns a value or raises, and leaves the list of the
    calls it made to the embedding providers. *)

Inductive Exn :=
  | ValueError (msg : string)
  | AttributeError (msg : string)
  | TypeError (msg : string)
  | OSError (msg : string)
  | ProviderError (msg : string).

Inductive result (A : Type) :=
  | Ok (a : A)
  | Raise (e : Exn).
Arguments Ok {A} a.
Arguments Raise {A} e.

Inductive Call :=
  | RemoteCreate (model input : string)
  | LocalEncode (input : string)
  | LocalEncodeBatch (inputs : list string).

Definition is_remote (c : Call) : bool :=
  match c with RemoteCreate _ _ => true | _ => false end.

Definition M (A : Type) : Type := result A * list Call.

Definition ret {A} (a : A) : M A := (Ok a, []).
Definition raise {A} (e : Exn) : M A := (Raise e, []).

Definition bind {A B} (m : M A) (k : A -> M B) : M B :=
  match m with
  | (Ok a, t) => let '(r, t') := k a in (r, t ++ t')
  | (Raise e, t) => (Raise e, t)
  end.

(** [try: m  except Exception as e: h e] *)
Definition try_except {A} (m : M A) (h : Exn -> M A) : M A :=
  match m with
  | (Ok a, t) => (Ok a, t)
  | (Raise e, t) => let '(r, t') := h e in (r, t ++ t')
  end.

(** One call to a provider, recorded. *)
Definition call {A} (c : Call) (r : result A) : M A := (r, [c]).

(** The value of a pure step that may raise. *)
Definition lift {A} (r : result A) : M A := (r, []).

Notation "'let*' x ':=' m 'in' k" := (bind m (fun x => k))
  (at level 10, x name, m at level 100, k at level 200).

(** [await asyncio.gather] of the awaitables [ms]: every awaitable runs;
    the values come back in the order of the arguments, or an exception of
    one of them is raised (here the one of the first argument that
    raised). *)
Fixpoint gather {A} (ms : list (M A)) : M (list A) :=
  match ms with
  | [] => ret []
  | m :: r =>
      let '(rs, tr) := gather r in
      match m, rs with
      | (Ok a, t), Ok l => (Ok (a :: l), t ++ tr)
      | (Ok _, t), Raise e => (Raise e, t ++ tr)
      | (Raise e, t), _ => (Raise e, t ++ tr)
      end
  end.

(** ** Python strings, ranges and slices

    A Python [str] is modelled as a [string] whose characters are the code
    points below 256. *)

Definition newline : ascii := "010"%char.
Definition NL : string := String newline EmptyString.

(** [s.split('\n')]: never empty, [''] for the empty string. *)
Fixpoint split_nl (s : string) : list string :=
  match s with
  | EmptyString => [EmptyString]
  | String c s' =>
      if Ascii.eqb c newline then EmptyString :: split_nl s'
      else match split_nl s' with
           | [] => [String c EmptyString]
           | l :: ls => String c l :: ls
           end
  end.

(** [str.isspace] on one character, for code points below 256. *)
Definition is_space (c : ascii) : bool :=
  let n := N_of_ascii c in
  ((9 <=? n)%N && (n <=? 13)%N) || ((28 <=? n)%N && (n <=? 32)%N)
  || (n =? 133)%N || (n =? 160)%N.

Fixpoint lstrip (s : string) : string :=
  match s with
  | EmptyString => EmptyString
  | String c s' => if is_space c then lstrip s' else s
  end.

Fixpoint rstrip (s : string) : string :=
  match s with
  | EmptyString => EmptyString
  | String c s' =>
      match rstrip s' with
      | EmptyString => if is_space c then EmptyString else String c EmptyString
      | r => String c r
      end
  end.

(** [s.strip()] *)
Definition strip (s : string) : string := rstrip (lstrip s).

(** [s.startswith(p)] *)
Definition startswith (s p : string) : bool := String.prefix p s.

(** [enumerate(lines, k)] *)
Fixpoint enumerate {A} (k : Z) (l : list A) : list (Z * A) :=
  match l with
  | [] => []
  | x :: r => (k, x) :: enumerate (k + 1) r
  end.

(** [len(l)] *)
Definition len {A} (l : list A) : Z := Z.of_nat (length l).

(** The values of a range with a positive step, and with a negative one.
    A range from [i] to [stop] has at most [|stop - i|] values, which is
    the fuel [py_range] gives. *)
Fixpoint range_up (fuel : nat) (i stop step : Z) : list Z :=
  match fuel with
  | O => []
  | S f => if i <? stop then i :: range_up f (i + step) stop step else []
  end.

Fixpoint range_down (fuel : nat) (i stop step : Z) : list Z :=
  match fuel with
  | O => []
  | S f => if stop <? i then i :: range_down f (i + step) stop step else []
  end.

(** [range(start, stop, step)] *)
Definition py_range (start stop step : Z) : result (list Z) :=
  if step =? 0 then Raise (ValueError "range() arg 3 must not be zero")
  else if 0 <? step
       then Ok (range_up (Z.to_nat (stop - start)) start stop step)
       else Ok (range_down (Z.to_nat (start - stop)) start stop step).

(** A slice bound brought into [0 .. len l]. *)
Definition clamp_index {A} (l : list A) (i : Z) : Z :=
  if i <? 0 then Z.max (i + len l) 0 else Z.min i (len l).

(** [l[lo:hi]] *)
Definition py_slice {A} (l : list A) (lo hi : Z) : list A :=
  let lo' := clamp_index l lo in
  let hi' := clamp_index l hi in
  firstn (Z.to_nat (hi' - lo')) (skipn (Z.to_nat lo') l).

(** ** The chunker *)

Record Chunk := mkChunk {
  text : string;
  type : string;
  start_line : Z;
  end_line : Z
}.

(** [line.strip().startswith('def ') or line.strip().startswith('class ')] *)
Definition opens_definition (line : string) : bool :=
  startswith (strip line) "def " || startswith (strip line) "class ".

(** The loop's variables. *)
Record ChunkLoop := mkLoop {
  chunks : list Chunk;
  current_chunk : list string;
  current_start : Z
}.

Definition code_block (lines : list string) (s e : Z) : Chunk :=
  {| text := String.concat NL lines; type := "code_block";
     start_line := s; end_line := e |}.

(** One iteration of [for i, line in enumerate(lines, 1)]. *)
Definition chunk_step (st : ChunkLoop) (il : Z * string) : ChunkLoop :=
  let '(i, line) := il in
  let cur := current_chunk st ++ [line] in
  if (50 <=? len cur) || (opens_definition line && (10 <? len cur))
  then {| chunks := chunks st ++ [code_block cur (current_start st) i];
          current_chunk := [];
          current_start := i + 1 |}
  else {| chunks := chunks st; current_chunk := cur;
          current_start := current_start st |}.

Definition chunk_loop (lines : list string) : ChunkLoop :=
  fold_left chunk_step (enumerate 1 lines)
    {| chunks := []; current_chunk := []; current_start := 1 |}.

Definition _chunk_code (content file_path : string) : list Chunk :=
  let lines := split_nl content in
  let st := chunk_loop lines in
  match current_chunk st with
  | [] => chunks st
  | _ :: _ =>
      chunks st ++ [code_block (current_chunk st) (current_start st) (len lines)]
  end.

(** ** The embedding service *)

Definition Vector : Type := list float.

(** The local sentence-transformer model. *)
Record SentenceTransformer := {
  encode : string -> result Vector;
  encode_batch : list string -> result (list Vector);
  get_sentence_embedding_dimension : result Z
}.

(** The hosted embedding API: [embeddings.create(model, input)] followed by
    [response.data[0].embedding]. *)
Record AsyncOpenAI := {
  embeddings_create : string -> string -> result Vector
}.

Record EmbeddingService := {
  local_model : option SentenceTransformer;
  openai_client : option AsyncOpenAI;
  model_name : string
}.

Definition is_set {A} (o : option A) : bool :=
  match o with Some _ => true | None => false end.

(** [model or default], for an optional string. *)
Definition str_or (model : option string) (default : string) : string :=
  match model with
  | Some (String c s) => String c s
  | _ => default
  end.

Definition no_model : Exn := ValueError "No embedding model available".

(** The local model is called through [run_in_executor]; an exception of
    the model is logged and raised again. *)
Definition _embed_with_local_model (svc : EmbeddingService) (text : string)
  : M Vector :=
  match local_model svc with
  | None => raise no_model
  | Some m => try_except (call (LocalEncode text) (encode m text)) raise
  end.

(** Any exception of the hosted call is answered by the local model. *)
Definition _embed_with_openai (svc : EmbeddingService) (text : string)
  (model : option string) : M Vector :=
  let model := str_or model "text-embedding-3-small" in
  try_except
    match openai_client svc with
    | None => raise (AttributeError "'NoneType' object has no attribute 'embeddings'")
    | Some c => call (RemoteCreate model text) (embeddings_create c model text)
    end
    (fun _ => _embed_with_local_model svc text).

Definition embed_text (svc : EmbeddingService) (text : string)
  (model : option string) (use_openai : bool) : M Vector :=
  if use_openai && is_set (openai_client svc)
  then _embed_with_openai svc text model
  else _embed_with_local_model svc text.

Definition _embed_with_local_model_batch (svc : EmbeddingService)
  (texts : list string) : M (list Vector) :=
  match local_model svc with
  | None => raise no_model
  | Some m => try_except (call (LocalEncodeBatch texts) (encode_batch m texts)) raise
  end.

(** The sub-batches [texts[i:i + batch_size]] for [i] in
    [range(0, len(texts), batch_size)]. *)
Definition sub_batches (texts : list string) (batch_size : Z)
  : result (list (list string)) :=
  match py_range 0 (len texts) batch_size with
  | Ok starts => Ok (map (fun i => py_slice texts i (i + batch_size)) starts)
  | Raise e => Raise e
  end.

(** The body of the loop over the sub-batches. *)
Fixpoint embed_batches (svc : EmbeddingService) (model : option string)
  (batches : list (list string)) (embeddings : list Vector)
  : M (list Vector) :=
  match batches with
  | [] => ret embeddings
  | batch :: rest =>
      let* batch_embeddings :=
        gather (map (fun text => _embed_with_openai svc text model) batch) in
      embed_batches svc model rest (embeddings ++ batch_embeddings)
  end.

Definition embed_texts (svc : EmbeddingService) (texts : list string)
  (model : option string) (use_openai : bool) (batch_size : Z)
  : M (list Vector) :=
  if use_openai && is_set (openai_client svc)
  then let* batches := lift (sub_batches texts batch_size) in
       embed_batches svc model batches []
  else _embed_with_local_model_batch svc texts.

Definition get_embedding_dimension (svc : EmbeddingService)
  (use_openai : bool) (model : option string) : result Z :=
  if use_openai then
    let model := str_or model "text-embedding-3-small" in
    if String.eqb model "text-embedding-3-small" then Ok 1536
    else if String.eqb model "text-embedding-3-large" then Ok 3072
    else Ok 1536
  else
    match local_model svc with
    | Some m => get_sentence_embedding_dimension m
    | None => Ok 384
    end.

(** ** Similarity

    [compute_similarity] and [find_most_similar] call [np.dot] and
    [np.linalg.norm], multiply, divide and compare.  NumPy hands the sum of
    products of [np.dot] to the [dot] kernel of its BLAS, and
    [np.linalg.norm] of a one-dimensional real array is the square root of
    [x.dot(x)], the same kernel on the same array; the kernel fixes neither
    the order of the additions nor the rounding of the products.  The two
    functions are therefore written over a record of operations and read in
    binary64 with the kernel as a parameter ([binary64]); to run them on
    examples the kernel adds the rounded products from the left
    ([float64]). *)

Record Arith := {
  num : Type;
  n_zero : num;
  n_dot : list num -> list num -> num;
  n_mul : num -> num -> num;
  n_div : num -> num -> num;
  n_sqrt : num -> num;
  n_eqb : num -> num -> bool;
  n_ltb : num -> num -> bool
}.

Definition binary64 (ddot : Vector -> Vector -> float) : Arith :=
  {| num := float; n_zero := 0%float; n_dot := ddot;
     n_mul := PrimFloat.mul; n_div := PrimFloat.div;
     n_sqrt := PrimFloat.sqrt; n_eqb := PrimFloat.eqb; n_ltb := PrimFloat.ltb |}.

(** The rounded products, added from the left. *)
Definition dot_sum (a b : Vector) : float :=
  fold_left (fun acc xy => (acc + fst xy * snd xy)%float) (combine a b) 0%float.

Definition float64 : Arith := binary64 dot_sum.

Section Similarity.

Variable K : Arith.
Local Abbreviation num := (num K).

(** [np.dot] of two one-dimensional arrays: arrays of different lengths
    are refused, the others go to the kernel. *)
Definition np_dot (a b : list num) : result num :=
  if Nat.eqb (length a) (length b) then Ok (n_dot K a b)
  else Raise (ValueError "shapes not aligned").

(** [np.linalg.norm] of a one-dimensional array: the square root of the
    array's product with itself. *)
Definition np_norm (v : list num) : num := n_sqrt K (n_dot K v v).

Definition compute_similarity (embedding1 embedding2 : list num) : num :=
  match np_dot embedding1 embedding2 with
  | Ok dot_product =>
      let norm1 := np_norm embedding1 in
      let norm2 := np_norm embedding2 in
      if n_eqb K norm1 (n_zero K) || n_eqb K norm2 (n_zero K)
      then n_zero K
      else n_div K dot_product (n_mul K norm1 norm2)
  | Raise _ => n_zero K
  end.

(** [list.sort] is stable; it is modelled by the stable insertion sort,
    which compares with [<] only, as [list.sort] does. *)
Fixpoint insert_by {A} (key : A -> num) (x : A) (l : list A) : list A :=
  match l with
  | [] => [x]
  | y :: r => if n_ltb K (key y) (key x) then y :: insert_by key x r
              else x :: y :: r
  end.

Fixpoint sort_by {A} (key : A -> num) (l : list A) : list A :=
  match l with
  | [] => []
  | x :: r => insert_by key x (sort_by key r)
  end.

(** [l.sort(key=key, reverse=True)]: the list is reversed, sorted
    ascending and reversed again, which keeps equal keys in their order. *)
Definition sort_reverse {A} (key : A -> num) (l : list A) : list A :=
  rev (sort_by key (rev l)).

Definition find_most_similar (query_embedding : list num)
  (candidate_embeddings : list (list num)) (top_k : Z) : list (Z * num) :=
  let similarities :=
    map (fun ic => (fst ic, compute_similarity query_embedding (snd ic)))
        (enumerate 0 candidate_embeddings) in
  py_slice (sort_reverse snd similarities) 0 top_k.

End Similarity.

(** ** The vector store

    The store is the external Qdrant service.  Its contract is modelled as
    far as the wrapper relies on it: named collections of fixed dimension
    holding points by id, every call refused while the service is
    unreachable, creation refused for a name that exists, upsert refused
    for a missing collection or a vector of another dimension, search
    returning the best-scored points first.  How the store scores two
    vectors is a parameter. *)

(** The payload values the pipeline stores. *)
Inductive PyVal :=
  | PStr (s : string)
  | PInt (n : Z).

Global Instance PyVal_eq_dec : EqDecision PyVal.
Proof. solve_decision. Defined.

(** Python truthiness. *)
Definition truthy (v : PyVal) : bool :=
  match v with
  | PStr s => negb (String.eqb s EmptyString)
  | PInt n => negb (n =? 0)
  end.

(** A point id: a [uuid4] drawn by the service (numbered in the order of the
    draws, no two alike and none equal to a caller's id), or an id supplied
    by the caller. *)
Definition PointId : Type := N + string.

Record PointStruct := {
  id : PointId;
  vector : Vector;
  payload : gmap string PyVal
}.

Record ScoredPoint := {
  hit_id : PointId;
  score : float;
  hit_payload : gmap string PyVal
}.

Record CollectionInfo := {
  vector_size : Z;
  points : gmap PointId (Vector * gmap string PyVal)
}.

Record World := {
  online : bool;
  collections : gmap string CollectionInfo;
  uuid_next : N
}.

Definition set_collections (w : World) (cs : gmap string CollectionInfo) : World :=
  {| online := online w; collections := cs; uuid_next := uuid_next w |}.

(** [uuid.uuid4()] *)
Definition uuid4 (w : World) : PointId * World :=
  (inl (uuid_next w),
   {| online := online w; collections := collections w;
      uuid_next := N.succ (uuid_next w) |}).

Definition unreachable : Exn := ProviderError "connection refused".

Definition client_get_collections (w : World) : result (list string) :=
  if online w then Ok (map fst (map_to_list (collections w)))
  else Raise unreachable.

Definition client_create_collection (w : World) (name : string) (size : Z)
  : result World :=
  if online w then
    match collections w !! name with
    | Some _ => Raise (ValueError "Collection already exists")
    | None =>
        Ok (set_collections w
              (<[name := {| vector_size := size; points := ∅ |}]> (collections w)))
    end
  else Raise unreachable.

Definition put_point (ps : gmap PointId (Vector * gmap string PyVal))
  (p : PointStruct) : gmap PointId (Vector * gmap string PyVal) :=
  <[id p := (vector p, payload p)]> ps.

Definition client_upsert (w : World) (name : string) (pts : list PointStruct)
  : result World :=
  if online w then
    match collections w !! name with
    | None => Raise (ValueError "Collection not found")
    | Some c =>
        if forallb (fun p => len (vector p) =? vector_size c) pts
        then Ok (set_collections w
                   (<[name := {| vector_size := vector_size c;
                                 points := fold_left put_point pts (points c) |}]>
                      (collections w)))
        else Raise (ValueError "Vector dimension error")
    end
  else Raise unreachable.

Section Search.

(** The store's similarity of a query with a stored vector. *)
Variable store_score : Vector -> Vector -> float.

Definition matches (conds : list (string * PyVal)) (pl : gmap string PyVal) : bool :=
  forallb (fun kv => bool_decide (pl !! fst kv = Some (snd kv))) conds.

Definition client_search (w : World) (name : string) (query : Vector)
  (limit : Z) (score_threshold : option float)
  (query_filter : option (list (string * PyVal))) : result (list ScoredPoint) :=
  if online w then
    match collections w !! name with
    | None => Raise (ValueError "Collection not found")
    | Some c =>
        let scored :=
          map (fun kv => {| hit_id := fst kv;
                            score := store_score query (fst (snd kv));
                            hit_payload := snd (snd kv) |})
              (map_to_list (points c)) in
        let passing :=
          List.filter (fun h =>
                    match score_threshold with
                    | Some t => (t <=? score h)%float
                    | None => true
                    end &&
                    match query_filter with
                    | Some conds => matches conds (hit_payload h)
                    | None => true
                    end) scored in
        Ok (firstn (Z.to_nat limit) (sort_reverse float64 score passing))
    end
  else Raise unreachable.

End Search.

(** ** The vector service *)

Definition create_collection (w : World) (collection_name : string)
  (vector_size : Z) : bool * World :=
  match client_create_collection w collection_name vector_size with
  | Ok w' => (true, w')
  | Raise _ => (false, w)
  end.

Definition collection_exists (w : World) (collection_name : string) : bool :=
  match client_get_collections w with
  | Ok names => existsb (String.eqb collection_name) names
  | Raise _ => false
  end.

(** What [ensure_collection] does once [collection_exists] has answered
    [observed]: the two are separate calls to the store, and the store may
    have changed in between. *)
Definition ensure_collection_after (observed : bool) (w : World)
  (collection_name : string) (vector_size : Z) : bool * World :=
  if negb observed then create_collection w collection_name vector_size
  else (true, w).

Definition ensure_collection (w : World) (collection_name : string)
  (vector_size : Z) : bool * World :=
  ensure_collection_after (collection_exists w collection_name)
    w collection_name vector_size.

(** [[str(uuid.uuid4()) for _ in vectors]] *)
Fixpoint fresh_ids {A} (w : World) (vectors : list A) : list PointId * World :=
  match vectors with
  | [] => ([], w)
  | _ :: r => let '(i, w1) := uuid4 w in
              let '(is', w2) := fresh_ids w1 r in (i :: is', w2)
  end.

(** [zip(ids, vectors, payloads)] turned into points. *)
Fixpoint zip_points (ids : list PointId) (vectors : list Vector)
  (payloads : list (gmap string PyVal)) : list PointStruct :=
  match ids, vectors, payloads with
  | i :: ids', v :: vectors', p :: payloads' =>
      {| id := i; vector := v; payload := p |} :: zip_points ids' vectors' payloads'
  | _, _, _ => []
  end.

Definition add_vectors (w : World) (collection_name : string)
  (vectors : list Vector) (payloads : list (gmap string PyVal))
  (ids : option (list PointId)) : bool * World :=
  let '(ids, w1) :=
    match ids with
    | Some (i :: r) => (i :: r, w)
    | _ => fresh_ids w vectors
    end in
  match client_upsert w1 collection_name (zip_points ids vectors payloads) with
  | Ok w2 => (true, w2)
  | Raise _ => (false, w1)
  end.

(** ** The code service *)

Section Pipelines.

Variable store_score : Vector -> Vector -> float.

Definition search_vectors (w : World) (collection_name : string)
  (query_vector : Vector) (limit : Z) (score_threshold : option float)
  (filter_conditions : option (list (string * PyVal))) : list ScoredPoint :=
  let search_filter :=
    match filter_conditions with
    | Some (c :: r) => Some (c :: r)
    | _ => None
    end in
  match client_search store_score w collection_name query_vector limit
          score_threshold search_filter with
  | Ok results => results
  | Raise _ => []
  end.

(** [sep.join(items)]: every item must be a string. *)
Fixpoint all_str (items : list PyVal) : result (list string) :=
  match items with
  | [] => Ok []
  | PStr s :: r => match all_str r with
                   | Ok l => Ok (s :: l)
                   | Raise e => Raise e
                   end
  | PInt _ :: _ => Raise (TypeError "sequence item: expected str instance")
  end.

Definition py_join (sep : string) (items : list PyVal) : result string :=
  match all_str items with
  | Ok l => Ok (String.concat sep l)
  | Raise e => Raise e
  end.

(** The snippets kept from the search results: the payload's ["text"] when
    it is there and truthy. *)
Definition context_snippets (results : list ScoredPoint) : list PyVal :=
  flat_map (fun r => match hit_payload r !! "text"%string with
                     | Some v => if truthy v then [v] else []
                     | None => []
                     end) results.

Definition BLANK : string := NL +:+ NL.

(** The literal [0.7]: the binary64 number nearest to it. *)
Definition threshold_0_7 : float := 0x1.6666666666666p-1%float.

Definition _get_relevant_context (w : World) (svc : EmbeddingService)
  (query language : string) : string :=
  match fst (embed_text svc query None false) with
  | Raise _ => EmptyString
  | Ok query_embedding =>
      let results :=
        search_vectors w "code_embeddings" query_embedding 3
                       (Some threshold_0_7) None in
      match py_join BLANK (context_snippets results) with
      | Ok s => s
      | Raise _ => EmptyString
      end
  end.

(** The file system under the project root. *)
Record FileSystem := {
  rglob : string -> string -> result (list string);
  read_text : string -> result string
}.

Definition default_patterns : list string :=
  ["*.py"; "*.js"; "*.ts"; "*.java"; "*.cpp"; "*.c"; "*.h"]%string.

(** [for pattern in file_patterns: code_files.extend(root.rglob(pattern))] *)
Fixpoint find_code_files (fs : FileSystem) (project_path : string)
  (patterns : list string) (code_files : list string) : result (list string) :=
  match patterns with
  | [] => Ok code_files
  | pattern :: r =>
      match rglob fs project_path pattern with
      | Ok found => find_code_files fs project_path r (code_files ++ found)
      | Raise e => Raise e
      end
  end.

Definition chunk_payload (project_id file_path : string) (chunk : Chunk)
  : gmap string PyVal :=
  <["project_id"%string := PStr project_id]>
  (<["file_path"%string := PStr file_path]>
  (<["chunk_type"%string := PStr (type chunk)]>
  (<["start_line"%string := PInt (start_line chunk)]>
  (<["end_line"%string := PInt (end_line chunk)]>
  (<["text"%string := PStr (text chunk)]> ∅))))).

(** The inner loop over the chunks of one file.  The two lists are the
    service's [vectors] and [payloads]; what was appended before an
    embedding failure stays appended. *)
Fixpoint embed_chunks (svc : EmbeddingService) (project_id file_path : string)
  (chunks : list Chunk)
  (acc : list Vector * list (gmap string PyVal))
  : list Vector * list (gmap string PyVal) :=
  match chunks with
  | [] => acc
  | chunk :: r =>
      match fst (embed_text svc (text chunk) None false) with
      | Ok embedding =>
          embed_chunks svc project_id file_path r
            (fst acc ++ [embedding],
             snd acc ++ [chunk_payload project_id file_path chunk])
      | Raise _ => acc
      end
  end.

(** One iteration of the loop over the files, with its [try] and
    [except: continue]. *)
Definition process_file (fs : FileSystem) (svc : EmbeddingService)
  (project_id : string) (acc : list Vector * list (gmap string PyVal))
  (file_path : string) : list Vector * list (gmap string PyVal) :=
  match read_text fs file_path with
  | Ok content =>
      embed_chunks svc project_id file_path
        (_chunk_code content file_path) acc
  | Raise _ => acc
  end.

(** [if not file_patterns: file_patterns = [...]] *)
Definition effective_patterns (file_patterns : list string) : list string :=
  match file_patterns with [] => default_patterns | _ => file_patterns end.

Definition index_project (w : World) (fs : FileSystem)
  (svc : EmbeddingService) (project_path project_id : string)
  (file_patterns : list string) : bool * World :=
  let file_patterns := effective_patterns file_patterns in
  match find_code_files fs project_path file_patterns [] with
  | Raise _ => (false, w)
  | Ok code_files =>
      let '(vectors, payloads) :=
        fold_left (process_file fs svc project_id) code_files ([], []) in
      let collection_name := ("project_" +:+ project_id)%string in
      match get_embedding_dimension svc false None with
      | Raise _ => (false, w)
      | Ok embedding_dim =>
          let '(_, w1) := ensure_collection w collection_name embedding_dim in
          add_vectors w1 collection_name vectors payloads None
      end
  end.

End Pipelines.

(** * Part II: the vocabulary of the properties *)

(** ** Chunks and line ranges *)

(** Line ranges that start at [first], follow one another without a gap and
    end at [last]. *)
Fixpoint contiguous (first : Z) (cs : list Chunk) (last : Z) : Prop :=
  match cs with
  | [] => first = last + 1
  | c :: r => start_line c = first /\ first <= end_line c /\
              contiguous (end_line c + 1) r last
  end.

(** Chunk [c] holds the lines [g]: at least one line, joined by newlines,
    over a range of as many line numbers. *)
Definition holds_lines (c : Chunk) (g : list string) : Prop :=
  g <> [] /\ text c = String.concat NL g /\
  end_line c = start_line c + len g - 1.

(** After the lines [pre] have been read. *)
Definition loop_inv (pre : list string) (st : ChunkLoop) : Prop :=
  exists gs,
    Forall2 holds_lines (chunks st) gs /\
    List.concat gs ++ current_chunk st = pre /\
    contiguous 1 (chunks st) (current_start st - 1) /\
    current_start st + len (current_chunk st) = len pre + 1.

(** ** Embeddings *)

(** Batches of exactly [size] items each, but for the last one, which is
    not empty and may hold fewer. *)
Fixpoint fixed_size {A} (size : Z) (bs : list (list A)) : Prop :=
  match bs with
  | [] => True
  | [b] => 0 < len b <= size
  | b :: r => len b = size /\ fixed_size size r
  end.

(** The local model's contract: encoding a list gives, for each text in
    order, what encoding that text alone gives. *)
Definition batch_agrees (m : SentenceTransformer) : Prop :=
  forall ts vs, encode_batch m ts = Ok vs ->
                Forall2 (fun t v => encode m t = Ok v) ts vs.

(** ** Scores and rankings *)

(** The scores [ss] are consistently ordered by [<]: no two of them are
    each below the other, and "not below" is transitive.  Real numbers are,
    and so are binary64 numbers other than NaN. *)
Definition consistent (K : Arith) (ss : list (num K)) : Prop :=
  (forall a b, In a ss -> In b ss ->
     n_ltb K a b = true -> n_ltb K b a = false) /\
  (forall a b c, In a ss -> In b ss -> In c ss ->
     n_ltb K b a = false -> n_ltb K c b = false -> n_ltb K c a = false).

Definition consistentb (K : Arith) (ss : list (num K)) : bool :=
  forallb (fun a => forallb (fun b =>
    implb (n_ltb K a b) (negb (n_ltb K b a)) &&
    forallb (fun c =>
      implb (negb (n_ltb K b a) && negb (n_ltb K c b)) (negb (n_ltb K c a)))
      ss) ss) ss.

(** [p] may stand before [q] in an ascending result: [q] is not below [p],
    and on a tie [tie p q] holds. *)
Definition ascending (K : Arith) (A : Type) (key : A -> num K)
  (tie : A -> A -> Prop) (p q : A) : Prop :=
  n_ltb K (key q) (key p) = false /\
  (n_ltb K (key p) (key q) = false -> tie p q).

(** [[(i, g c) for i, c in enumerate(l, k)]] *)
Definition scored (B C : Type) (g : B -> C) (k : Z) (l : list B) : list (Z * C) :=
  map (fun ic => (fst ic, g (snd ic))) (enumerate k l).

(** [p] may stand before [q] in the result: [p]'s score is not below [q]'s,
    and when the two scores tie, [p] is the earlier candidate. *)
Definition ranked (K : Arith) (p q : Z * num K) : Prop :=
  n_ltb K (snd p) (snd q) = false /\
  (n_ltb K (snd q) (snd p) = false -> fst p < fst q).

(** Within tolerance, in binary64. *)
Definition close (x y : float) : bool :=
  (PrimFloat.abs (x - y) <=? 0x1p-30)%float.

Definition nonzero (v : Vector) : bool :=
  existsb (fun x => negb (x =? 0)%float) v.

(** One of the binary64 numbers from [1 - 2^-50] to [1 + 2^-50]. *)
Definition near_one (r : float) : bool :=
  ((0x1.ffffffffffff8p-1 <=? r) && (r <=? 0x1.0000000000004p+0))%float.

(** A positive finite binary64 number: neither zero nor negative, neither
    infinite nor NaN. *)
Definition positive_finite (s : float) : bool :=
  ((0 <? s) && (s <? infinity))%float.

(** ** Binary64 numbers and their rounding *)

(** Powers of two, as real numbers. *)
Definition bpow (e : Z) : R := powerRZ 2 e.

(** The value of the positive binary64 number of mantissa [m] and exponent
    [e]. *)
Definition F2R (m : positive) (e : Z) : R := (IZR (Zpos m) * bpow e)%R.

(** The mantissa and the exponent of a normal number. *)
Definition normal64 (m : positive) (e : Z) : Prop :=
  2 ^ 52 <= Zpos m < 2 ^ 53 /\ -1074 <= e <= 971.

(** The unit roundoff of binary64, [2^-53]. *)
Definition u64 : R := (/ 9007199254740992)%R.

(** A real number located by an integer part and the round and sticky bits
    of the rounding procedure: the bits tell whether the number is the
    integer, below, at or above the next half. *)
Definition located (x : R) (mrs : shr_record) : Prop :=
  0 <= shr_m mrs /\
  match shr_r mrs, shr_s mrs with
  | false, false => x = IZR (shr_m mrs)
  | false, true => (IZR (shr_m mrs) < x < IZR (shr_m mrs) + / 2)%R
  | true, false => x = (IZR (shr_m mrs) + / 2)%R
  | true, true => (IZR (shr_m mrs) + / 2 < x < IZR (shr_m mrs) + 1)%R
  end.

(** ** Stores and runs *)

(** Two callers of [ensure_collection], each suspended between its check
    and its creation: both checks run first, then both creations. *)
Definition racing_callers (w : World) (name : string) (size : Z)
  : bool * bool * World :=
  let observed_a := collection_exists w name in
  let observed_b := collection_exists w name in
  let '(ra, w1) := ensure_collection_after observed_a w name size in
  let '(rb, w2) := ensure_collection_after observed_b w1 name size in
  (ra, rb, w2).

(** The number of points stored in a collection. *)
Definition count (w : World) (name : string) : nat :=
  match collections w !! name with
  | Some c => size (points c)
  | None => 0%nat
  end.

(** Every stored [uuid4] was drawn before. *)
Definition uuids_fresh (w : World) : Prop :=
  forall name c n x,
    collections w !! name = Some c -> points c !! inl n = Some x ->
    (n < uuid_next w)%N.

(** The chunks of a file that are embedded: those before the first chunk
    whose embedding fails. *)
Fixpoint embedded_prefix (svc : EmbeddingService) (project_id file_path : string)
  (chunks : list Chunk) : list (Vector * gmap string PyVal) :=
  match chunks with
  | [] => []
  | chunk :: r =>
      match fst (embed_text svc (text chunk) None false) with
      | Ok v => (v, chunk_payload project_id file_path chunk)
                :: embedded_prefix svc project_id file_path r
      | Raise _ => []
      end
  end.

(** What one file adds to the batch: nothing when it cannot be read. *)
Definition file_embeddings (fs : FileSystem) (svc : EmbeddingService)
  (project_id file_path : string) : list (Vector * gmap string PyVal) :=
  match read_text fs file_path with
  | Ok content =>
      embedded_prefix svc project_id file_path (_chunk_code content file_path)
  | Raise _ => []
  end.

(** A file whose processing fails: it cannot be read, or the embedding of
    one of its chunks fails. *)
Definition file_fails (fs : FileSystem) (svc : EmbeddingService)
  (file_path : string) : Prop :=
  match read_text fs file_path with
  | Raise _ => True
  | Ok content =>
      Exists (fun c => exists e,
                fst (embed_text svc (text c) None false) = Raise e)
             (_chunk_code content file_path)
  end.

(** The vectors of one run over the project. *)
Definition project_vectors (fs : FileSystem) (svc : EmbeddingService)
  (project_path project_id : string) (file_patterns : list string)
  : list Vector :=
  match find_code_files fs project_path (effective_patterns file_patterns) [] with
  | Ok code_files =>
      fst (fold_left (process_file fs svc project_id) code_files ([], []))
  | Raise _ => []
  end.

(** The scores the store gives the points of a collection for a query. *)
Definition stored_scores (store_score : Vector -> Vector -> float)
  (c : CollectionInfo) (query : Vector) : list float :=
  map (fun kv => store_score query (fst (snd kv))) (map_to_list (points c)).

(** The texts that go into the context: the non-empty string texts of the
    hits, in the order of the hits. *)
Definition kept_texts (hits : list ScoredPoint) : list string :=
  flat_map (fun h => match hit_payload h !! "text"%string with
                     | Some (PStr (String c s)) => [String c s]
                     | _ => []
                     end) hits.

(** The text payload of a hit as it is stored. *)
Definition raw_text (h : ScoredPoint) : string :=
  match hit_payload h !! "text"%string with
  | Some (PStr s) => s
  | _ => EmptyString
  end.

(** ** Services, projects and stores to run the program on *)

Definition demo_vec (t : string) : Vector :=
  if String.prefix "a" t then [1%float; 0%float] else [0%float; 1%float].

Definition demo_model : SentenceTransformer :=
  {| encode := fun t => Ok (demo_vec t);
     encode_batch := fun ts => Ok (map demo_vec ts);
     get_sentence_embedding_dimension := Ok 2 |}.

Definition demo_client : AsyncOpenAI :=
  {| embeddings_create := fun model t =>
       if String.eqb t "b" then Raise (ProviderError "rate limit")
       else Ok [0.25%float; 0.75%float] |}.

Definition both_service : EmbeddingService :=
  {| local_model := Some demo_model; openai_client := Some demo_client;
     model_name := "sentence-transformers/all-MiniLM-L6-v2" |}.

Definition local_only_service : EmbeddingService :=
  {| local_model := Some demo_model; openai_client := None;
     model_name := "sentence-transformers/all-MiniLM-L6-v2" |}.

Definition remote_only_service : EmbeddingService :=
  {| local_model := None; openai_client := Some demo_client;
     model_name := "sentence-transformers/all-MiniLM-L6-v2" |}.

Definition unconfigured_service : EmbeddingService :=
  {| local_model := None; openai_client := None;
     model_name := "sentence-transformers/all-MiniLM-L6-v2" |}.

(** A local model that refuses the empty text. *)
Definition picky_model : SentenceTransformer :=
  {| encode := fun t => if String.eqb t EmptyString
                        then Raise (ValueError "empty input")
                        else Ok (demo_vec t);
     encode_batch := fun ts => Ok (map demo_vec ts);
     get_sentence_embedding_dimension := Ok 2 |}.

Definition picky_service : EmbeddingService :=
  {| local_model := Some picky_model; openai_client := None;
     model_name := "sentence-transformers/all-MiniLM-L6-v2" |}.

(** A project without a matching file. *)
Definition no_files : FileSystem :=
  {| rglob := fun _ _ => Ok [];
     read_text := fun _ => Raise (OSError "No such file or directory") |}.

(** A project with one Python file of fifty lines and a final newline, and
    one that cannot be read. *)
Definition two_files : FileSystem :=
  {| rglob := fun _ pattern =>
       if String.eqb pattern "*.py" then Ok ["/p/a.py"; "/p/b.py"]%string
       else Ok [];
     read_text := fun f =>
       if String.eqb f "/p/a.py"
       then Ok (String.concat NL (repeat "x"%string 50) +:+ NL)
       else Raise (OSError "Permission denied") |}.

(** A project whose patterns the file system refuses. *)
Definition bad_pattern : FileSystem :=
  {| rglob := fun _ _ => Raise (ValueError "Unacceptable pattern");
     read_text := fun _ => Raise (OSError "No such file or directory") |}.

Definition empty_world : World :=
  {| online := true; collections := ∅; uuid_next := 0 |}.

(** A shared collection with two points of the same vector, the text of
    one of them empty. *)
Definition snippets_world : World :=
  {| online := true;
     collections :=
       {[ "code_embeddings"%string :=
            {| vector_size := 2;
               points :=
                 <[inr "1"%string :=
                     ([1%float; 0%float],
                      {[ "text"%string := PStr EmptyString ]})]>
                 {[ inr "2"%string :=
                     ([1%float; 0%float],
                      {[ "text"%string := PStr "def f(): pass" ]}) ]} |} ]};
     uuid_next := 0 |}.

(** A shared collection with two points of the same vector, the text of
    one of them a number. *)
Definition numbers_world : World :=
  {| online := true;
     collections :=
       {[ "code_embeddings"%string :=
            {| vector_size := 2;
               points :=
                 <[inr "1"%string :=
                     ([1%float; 0%float],
                      {[ "text"%string := PInt 5 ]})]>
                 {[ inr "2"%string :=
                     ([1%float; 0%float],
                      {[ "text"%string := PStr "abc" ]}) ]} |} ]};
     uuid_next := 0 |}.

(** ** The properties as the specification words them *)

(** The property as the specification words it: the texts joined line by
    line give the content back, the ranges tile [1 .. number of lines], and
    no text is empty. *)
Definition chunker_claim (content file_path : string) : Prop :=
  let cs := _chunk_code content file_path in
  String.concat NL (map text cs) = content /\
  contiguous 1 cs (len (split_nl content)) /\
  Forall (fun c => text c <> EmptyString) cs.

(** The property as the specification words it: a file whose processing
    fails is skipped, nothing of it being sent to the store, and the run
    reports what the one upsert reports. *)
Definition indexing_claim (w : World) (fs : FileSystem)
  (svc : EmbeddingService) (project_path project_id : string)
  (file_patterns : list string) : Prop :=
  forall code_files,
    find_code_files fs project_path (effective_patterns file_patterns) []
      = Ok code_files ->
    (forall file_path,
       In file_path code_files -> file_fails fs svc file_path ->
       List.Forall (fun p => p !! "file_path"%string <> Some (PStr file_path))
         (snd (fold_left (process_file fs svc project_id) code_files ([], [])))) /\
    (forall dim,
       get_embedding_dimension svc false None = Ok dim ->
       fst (index_project w fs svc project_path project_id file_patterns) =
       fst (add_vectors
              (snd (ensure_collection w ("project_" +:+ project_id) dim))
              ("project_" +:+ project_id)
              (fst (fold_left (process_file fs svc project_id) code_files ([], [])))
              (snd (fold_left (process_file fs svc project_id) code_files ([], [])))
              None)).

(** The property as the specification words it: the context is the text
    payloads of the kept results, one blank line between two of them. *)
Definition context_claim (store_score : Vector -> Vector -> float)
  (w : World) (svc : EmbeddingService) (query language : string) : Prop :=
  forall query_embedding,
    fst (embed_text svc query None false) = Ok query_embedding ->
    _get_relevant_context store_score w svc query language =
    String.concat BLANK
      (map raw_text
         (search_vectors store_score w "code_embeddings" query_embedding 3
            (Some threshold_0_7) None)).

(** The property as the specification words it: the batch call returns a
    list with one vector per text, the vector at each position being the
    embedding of the text at that position. *)
Definition batch_claim (svc : EmbeddingService) (texts : list string)
  (model : option string) (use_openai : bool) (batch_size : Z) : Prop :=
  exists vs,
    fst (embed_texts svc texts model use_openai batch_size) = Ok vs /\
    length vs = length texts /\
    Forall2 (fun t v => fst (embed_text svc t model use_openai) = Ok v)
            texts vs.

(** The property as the specification words it, for one call of
    [embed_text]: a failed Remote call is answered by the Local strategy for
    that text; a result is returned whenever at least one strategy is
    configured; with none configured the call fails with the configuration
    error (here the [ValueError] "No embedding model available"). *)
Definition gateway_claim (svc : EmbeddingService) (text : string)
  (model : option string) (use_openai : bool) : Prop :=
  (forall c e,
     openai_client svc = Some c ->
     embeddings_create c (str_or model "text-embedding-3-small") text = Raise e ->
     fst (_embed_with_openai svc text model) =
     fst (_embed_with_local_model svc text)) /\
  (is_set (local_model svc) || is_set (openai_client svc) = true ->
   exists v, fst (embed_text svc text model use_openai) = Ok v) /\
  (local_model svc = None -> openai_client svc = None ->
   fst (embed_text svc text model use_openai) = Raise no_model).

(** The property as the specification words it, for the service's binary64
    vectors. *)
Definition cosine_claim (a b : Vector) : Prop :=
  (length a = length b ->
   n_eqb float64 (np_norm float64 a) 0%float = false ->
   n_eqb float64 (np_norm float64 b) 0%float = false ->
   compute_similarity float64 a b =
   (dot_sum a b / (np_norm float64 a * np_norm float64 b))%float) /\
  (nonzero a = true -> close (compute_similarity float64 a a) 1 = true) /\
  (n_eqb float64 (np_norm float64 a) 0%float = true \/
   n_eqb float64 (np_norm float64 b) 0%float = true ->
   compute_similarity float64 a b = 0%float).

(** The property as the specification words it. *)
Definition most_similar_claim (K : Arith) (query : list (num K))
  (candidates : list (list (num K))) (top_k : Z) : Prop :=
  let r := find_most_similar K query candidates top_k in
  len r <= top_k /\
  StronglySorted (ranked K) r /\
  List.Forall (fun p => exists c,
            nth_error candidates (Z.to_nat (fst p)) = Some c /\
            snd p = compute_similarity K query c) r.

(** The property as the specification words it: the collection is created
    when absent, the call succeeds when it exists, and a creation that fails
    because the collection exists by now counts as success. *)
Definition ensure_claim (w : World) (name : string) (size : Z) : Prop :=
  (online w = true ->
   fst (ensure_collection w name size) = true /\
   is_Some (collections (snd (ensure_collection w name size)) !! name)) /\
  (is_Some (collections w !! name) ->
   fst (ensure_collection_after false w name size) = true).

(** The property as the specification words it: a second run over the
    unchanged project leaves strictly more points in the collection. *)
Definition reindex_claim (w : World) (fs : FileSystem)
  (svc : EmbeddingService) (project_path project_id : string)
  (file_patterns : list string) : Prop :=
  let w1 := snd (index_project w fs svc project_path project_id file_patterns) in
  let w2 := snd (index_project w1 fs svc project_path project_id file_patterns) in
  (count w1 ("project_" +:+ project_id) < count w2 ("project_" +:+ project_id))%nat.

(** * Part III: lemmas and theorems *)

(** ** The chunker *)

(** *** Splitting and joining lines *)

Lemma split_nl_nonempty (s : string) : split_nl s <> [].
Proof.
  induction s as [|c s IH]; simpl; [discriminate|].
  destruct (Ascii.eqb c newline); [discriminate|].
  destruct (split_nl s); discriminate.
Qed.

Lemma join_split_nl (s : string) : String.concat NL (split_nl s) = s.
Proof.
  induction s as [|c s IH]; simpl; [reflexivity|].
  destruct (Ascii.eqb_spec c newline) as [->|Hc].
  - pose proof (split_nl_nonempty s) as Hne.
    destruct (split_nl s) as [|l ls] eqn:E; [contradiction|].
    change (String.concat NL (EmptyString :: l :: ls))
      with (NL +:+ String.concat NL (l :: ls)).
    rewrite IH. reflexivity.
  - pose proof (split_nl_nonempty s) as Hne.
    destruct (split_nl s) as [|l ls] eqn:E; [contradiction|].
    rewrite <- IH. destruct ls; reflexivity.
Qed.

Lemma string_app_assoc (a b c : string) : (a +:+ b) +:+ c = a +:+ (b +:+ c).
Proof.
  induction a as [|x a IH]; [reflexivity|].
  change (String x ((a +:+ b) +:+ c) = String x (a +:+ (b +:+ c))).
  now rewrite IH.
Qed.

Lemma join_app (sep : string) (a b : list string) :
  a <> [] -> b <> [] ->
  String.concat sep (a ++ b) =
  String.concat sep a +:+ sep +:+ String.concat sep b.
Proof.
  intros Ha Hb. induction a as [|x a IH]; [contradiction|].
  destruct a as [|y a].
  - simpl. destruct b; [contradiction|reflexivity].
  - change (String.concat sep ((x :: y :: a) ++ b))
      with (x +:+ sep +:+ String.concat sep ((y :: a) ++ b)).
    rewrite IH by discriminate.
    change (String.concat sep (x :: y :: a))
      with (x +:+ sep +:+ String.concat sep (y :: a)).
    rewrite !string_app_assoc. reflexivity.
Qed.

(** Joining the joined groups is joining all the lines, as long as no group
    is empty. *)
Lemma join_groups (sep : string) (gs : list (list string)) :
  Forall (fun g => g <> []) gs ->
  String.concat sep (map (String.concat sep) gs) =
  String.concat sep (List.concat gs).
Proof.
  induction 1 as [|g gs Hg Hgs IH]; [reflexivity|].
  destruct gs as [|g' gs].
  - simpl. rewrite app_nil_r. reflexivity.
  - change (String.concat sep (map (String.concat sep) (g :: g' :: gs)))
      with (String.concat sep g +:+ sep +:+
            String.concat sep (map (String.concat sep) (g' :: gs))).
    rewrite IH.
    change (List.concat (g :: g' :: gs)) with (g ++ List.concat (g' :: gs)).
    rewrite join_app; [reflexivity|assumption|].
    inversion Hgs as [|? ? Hg' _]; subst.
    simpl. destruct g'; [contradiction|discriminate].
Qed.

(** *** The chunker's loop invariant *)

Lemma len_app {A} (a b : list A) : len (a ++ b) = len a + len b.
Proof. unfold len. rewrite length_app. lia. Qed.

Lemma len_nonneg {A} (a : list A) : 0 <= len a.
Proof. unfold len. lia. Qed.

Lemma contiguous_snoc first cs last c :
  contiguous first cs last ->
  start_line c = last + 1 -> start_line c <= end_line c ->
  contiguous first (cs ++ [c]) (end_line c).
Proof.
  revert first. induction cs as [|d cs IH]; simpl; intros first H Hs Hle.
  - repeat split; lia.
  - destruct H as (H1 & H2 & H3). repeat split; auto.
Qed.

Lemma concat_snoc {A} (gs : list (list A)) (g : list A) :
  List.concat (gs ++ [g]) = List.concat gs ++ g.
Proof. rewrite List.concat_app. simpl. now rewrite app_nil_r. Qed.

Lemma chunk_step_inv pre st line :
  loop_inv pre st ->
  loop_inv (pre ++ [line]) (chunk_step st (len pre + 1, line)).
Proof.
  intros (gs & Hgs & Hcat & Hcont & Hstart).
  unfold chunk_step.
  set (cur := current_chunk st ++ [line]).
  assert (Hcur : len cur = len (current_chunk st) + 1)
    by (unfold cur; rewrite len_app; reflexivity).
  assert (Hpre : len (pre ++ [line]) = len pre + 1)
    by (rewrite len_app; reflexivity).
  pose proof (len_nonneg (current_chunk st)) as Hnn.
  destruct ((50 <=? len cur) || (opens_definition line && (10 <? len cur))).
  - exists (gs ++ [cur]). simpl. repeat split.
    + apply Forall2_app; [assumption|].
      constructor; [|constructor]. unfold holds_lines; simpl.
      repeat split; [unfold cur; now destruct (current_chunk st)|lia].
    + rewrite concat_snoc, app_nil_r. unfold cur.
      rewrite app_assoc. now rewrite Hcat.
    + replace (len pre + 1 + 1 - 1) with
        (end_line (code_block cur (current_start st) (len pre + 1)))
        by (simpl; lia).
      eapply contiguous_snoc; [eassumption|simpl; lia|simpl; lia].
    + rewrite Hpre. change (len (@nil string)) with 0. lia.
  - exists gs. simpl. repeat split; auto.
    + unfold cur. rewrite app_assoc. now rewrite Hcat.
    + fold cur. lia.
Qed.

Lemma chunk_fold_inv lines : forall pre st,
  loop_inv pre st ->
  loop_inv (pre ++ lines)
    (fold_left chunk_step (enumerate (len pre + 1) lines) st).
Proof.
  induction lines as [|line lines IH]; intros pre st Hinv;
    cbn [enumerate fold_left].
  - now rewrite app_nil_r.
  - replace (pre ++ line :: lines) with ((pre ++ [line]) ++ lines)
      by (now rewrite <- app_assoc).
    replace (len pre + 1 + 1) with (len (pre ++ [line]) + 1)
      by (rewrite len_app; reflexivity).
    apply IH. now apply chunk_step_inv.
Qed.

Lemma chunk_loop_inv lines : loop_inv lines (chunk_loop lines).
Proof.
  unfold chunk_loop.
  apply (chunk_fold_inv lines [] {| chunks := []; current_chunk := [];
                                    current_start := 1 |}).
  exists []. simpl. repeat split; constructor.
Qed.

Lemma holds_lines_texts cs gs :
  Forall2 holds_lines cs gs ->
  map text cs = map (String.concat NL) gs /\ Forall (fun g => g <> []) gs.
Proof.
  induction 1 as [|c g cs gs (Hne & Ht & _) _ [IH1 IH2]]; simpl.
  - split; constructor.
  - split; [congruence|now constructor].
Qed.

(** What [_chunk_code] returns for the lines [split_nl content]. *)
Lemma chunk_code_groups content file_path :
  exists gs,
    Forall2 holds_lines (_chunk_code content file_path) gs /\
    List.concat gs = split_nl content /\
    contiguous 1 (_chunk_code content file_path) (len (split_nl content)).
Proof.
  unfold _chunk_code.
  destruct (chunk_loop_inv (split_nl content)) as (gs & Hgs & Hcat & Hcont & Hs).
  destruct (current_chunk (chunk_loop (split_nl content))) as [|l cur] eqn:E.
  - exists gs. rewrite app_nil_r in Hcat. repeat split; auto.
    replace (len (split_nl content))
      with (current_start (chunk_loop (split_nl content)) - 1)
      by (unfold len at 1 in Hs; simpl in Hs; lia).
    assumption.
  - exists (gs ++ [l :: cur]).
    assert (Hl : len (l :: cur) = len cur + 1) by (unfold len; simpl; lia).
    pose proof (len_nonneg cur) as Hnn.
    repeat split.
    + apply Forall2_app; [assumption|].
      constructor; [|constructor]. unfold holds_lines; simpl.
      repeat split; [discriminate|lia].
    + now rewrite concat_snoc.
    + replace (len (split_nl content)) with
        (end_line (code_block (l :: cur)
           (current_start (chunk_loop (split_nl content)))
           (len (split_nl content)))) at 2 by reflexivity.
      eapply contiguous_snoc; [eassumption|simpl; lia|simpl; lia].
Qed.

Lemma join_empty_single (g : list string) :
  g <> [] -> String.concat NL g = EmptyString -> g = [EmptyString].
Proof.
  destruct g as [|x [|y g]]; intros Hne H; [contradiction|simpl in H; now subst|].
  change (x +:+ NL +:+ String.concat NL (y :: g) = EmptyString) in H.
  destruct x; discriminate H.
Qed.

(** Sixty lines, default thresholds: lines 1-50, then 51-60. *)
Example chunk_code_sixty_lines :
  map (fun c => (start_line c, end_line c))
      (_chunk_code (String.concat NL (repeat "x"%string 60)) "a.py")
  = [(1, 50); (51, 60)].
Proof. vm_compute. reflexivity. Qed.

(** A definition line closes the chunk once more than ten lines are held. *)
Example chunk_code_definition_boundary :
  map (fun c => (start_line c, end_line c))
      (_chunk_code (String.concat NL
         (repeat "x"%string 10 ++ ["def f():"; "    pass"]%string)) "a.py")
  = [(1, 11); (12, 12)].
Proof. vm_compute. reflexivity. Qed.

(** Fifty lines and a final newline: the last chunk is the empty line 51. *)
Example chunk_code_trailing_newline :
  map (fun c => (text c, start_line c, end_line c))
      (skipn 1 (_chunk_code (String.concat NL (repeat "x"%string 50) +:+ NL) "a.py"))
  = [(EmptyString, 51, 51)].
Proof. vm_compute. reflexivity. Qed.

(** C1, as stated, fails: the empty file is chunked into one chunk, lines
    1 to 1, whose text is empty. *)
Lemma chunker_claim_fails_on_empty_file :
  ~ chunker_claim EmptyString "main.py".
Proof.
  unfold chunker_claim. intros (_ & _ & H).
  vm_compute in H. inversion H as [|c cs Hc _]; subst. now apply Hc.
Qed.

(** C1, amended: for every content the chunker returns at least one chunk;
    the chunks' texts joined by newlines are the content; the line ranges
    are 1-indexed, start at line 1, follow one another without a gap and end
    at the last line; every chunk holds at least one line (its text is its
    lines joined by newlines), and a chunk's text is empty only when the
    chunk is one single empty line. *)
Theorem chunk_code_partition (content file_path : string) :
  let cs := _chunk_code content file_path in
  cs <> [] /\
  String.concat NL (map text cs) = content /\
  contiguous 1 cs (len (split_nl content)) /\
  (exists gs, List.concat gs = split_nl content /\ Forall2 holds_lines cs gs) /\
  Forall (fun c => start_line c <= end_line c /\
                   (text c = EmptyString -> start_line c = end_line c)) cs.
Proof.
  cbv zeta.
  destruct (chunk_code_groups content file_path) as (gs & Hgs & Hcat & Hcont).
  destruct (holds_lines_texts _ _ Hgs) as [Htexts Hne].
  repeat split.
  - intros E. rewrite E in Hgs. inversion Hgs; subst.
    simpl in Hcat. symmetry in Hcat. now apply split_nl_nonempty in Hcat.
  - rewrite Htexts, join_groups, Hcat by assumption. apply join_split_nl.
  - assumption.
  - exists gs. split; assumption.
  - clear -Hgs. induction Hgs as [|c g cs gs (Hg & Ht & He) _ IH];
      constructor; [|assumption].
    assert (1 <= len g)
      by (destruct g; [contradiction|unfold len; simpl; lia]).
    split; [lia|]. intros Hempty. rewrite Ht in Hempty.
    apply join_empty_single in Hempty; [|assumption]. subst g.
    change (len [EmptyString]) with 1 in He. lia.
Qed.

(** ** The embedding service *)

(** *** Results of composed computations *)

Lemma bind_ok {A B} (m : M A) (k : A -> M B) (b : B) :
  fst (bind m k) = Ok b <-> exists a, fst m = Ok a /\ fst (k a) = Ok b.
Proof.
  destruct m as [[a|e] t]; simpl.
  - destruct (k a) as [r t'] eqn:E; simpl. split.
    + intros ->. exists a. rewrite E. auto.
    + intros (a' & Ha & Hb). inversion Ha; subst. now rewrite E in Hb.
  - split; [discriminate|]. intros (a & Ha & _). discriminate.
Qed.

Lemma gather_ok {A} (ms : list (M A)) (vs : list A) :
  fst (gather ms) = Ok vs <-> Forall2 (fun m v => fst m = Ok v) ms vs.
Proof.
  revert vs. induction ms as [|m ms IH]; intros vs; simpl.
  - split; [intros H; inversion H; constructor|intros H; now inversion H].
  - destruct (gather ms) as [rs tr]. simpl in IH.
    destruct m as [[a|e] t], rs as [l|e']; simpl; split; intros H;
      try discriminate.
    + inversion H; subst. constructor; [reflexivity|now apply IH].
    + inversion H as [|? ? ? ? Ha Hl]; subst. simpl in Ha. inversion Ha; subst.
      apply IH in Hl. now inversion Hl.
    + inversion H as [|? ? ? ? _ Hl]; subst. apply IH in Hl. discriminate.
    + inversion H as [|? ? ? ? Ha _]; subst. discriminate.
    + inversion H as [|? ? ? ? Ha _]; subst. discriminate.
Qed.

Lemma gather_map_ok {A B} (f : A -> M B) (l : list A) (vs : list B) :
  fst (gather (map f l)) = Ok vs <-> Forall2 (fun a v => fst (f a) = Ok v) l vs.
Proof.
  rewrite gather_ok. split; intros H.
  - remember (map f l) as ms eqn:E. revert l E.
    induction H as [|m v ms vs Hm _ IH]; intros [|a0 l0] E;
      try discriminate; constructor; inversion E; subst; auto.
  - induction H; simpl; constructor; auto.
Qed.

(** *** Sub-batches *)

Lemma len_skipn {A} (l : list A) (i : Z) :
  0 <= i <= len l -> len (skipn (Z.to_nat i) l) = len l - i.
Proof. intros H. unfold len in *. rewrite length_skipn. lia. Qed.

Lemma py_slice_window {A} (l : list A) (i step : Z) :
  0 <= i < len l -> 0 < step ->
  py_slice l i (i + step) = firstn (Z.to_nat step) (skipn (Z.to_nat i) l).
Proof.
  intros Hi Hs. unfold py_slice, clamp_index.
  destruct (Z.ltb_spec i 0); [lia|].
  destruct (Z.ltb_spec (i + step) 0); [lia|].
  rewrite (Z.min_l i) by lia.
  destruct (Z.le_gt_cases (i + step) (len l)).
  - rewrite Z.min_l by lia. f_equal. lia.
  - rewrite Z.min_r by lia.
    rewrite !firstn_all2; [reflexivity| |];
      pose proof (len_skipn l i ltac:(lia)); unfold len in *; lia.
Qed.

Lemma range_up_batches {A} (l : list A) (step : Z) :
  0 < step -> forall fuel i,
  0 <= i -> len l - i <= Z.of_nat fuel ->
  List.concat (map (fun i => py_slice l i (i + step))
                   (range_up fuel i (len l) step))
  = skipn (Z.to_nat i) l.
Proof.
  intros Hs. induction fuel as [|fuel IH]; intros i Hi Hf; simpl.
  - rewrite skipn_all2; [reflexivity|]. unfold len in *. lia.
  - destruct (Z.ltb_spec i (len l)); simpl.
    + rewrite IH by lia. rewrite py_slice_window by lia.
      replace (Z.to_nat (i + step)) with (Z.to_nat step + Z.to_nat i)%nat by lia.
      rewrite <- skipn_skipn. apply firstn_skipn.
    + rewrite skipn_all2; [reflexivity|]. unfold len in *. lia.
Qed.

Lemma range_up_bounds (stop step : Z) : forall fuel i,
  Forall (fun j => i <= j < stop) (range_up fuel i stop step) \/ step <= 0.
Proof.
  destruct (Z.le_gt_cases step 0) as [?|Hs]; [now right|].
  intros fuel i. left. revert i.
  induction fuel as [|fuel IH]; intros i; simpl; [constructor|].
  destruct (Z.ltb_spec i stop); constructor; [lia|].
  eapply List.Forall_impl; [|apply IH]. simpl. intros; lia.
Qed.

Lemma range_up_head (fuel : nat) (i stop step j : Z) (r : list Z) :
  range_up fuel i stop step = j :: r -> j = i /\ i < stop.
Proof.
  destruct fuel as [|fuel]; simpl; [discriminate|].
  destruct (Z.ltb_spec i stop) as [Hlt|Hge]; [|discriminate].
  intros E. inversion E; subst. split; [reflexivity|assumption].
Qed.

Lemma range_up_fixed_size {A} (l : list A) (step : Z) :
  0 < step -> forall fuel i,
  0 <= i -> len l - i <= Z.of_nat fuel ->
  fixed_size step (map (fun i => py_slice l i (i + step))
                       (range_up fuel i (len l) step)).
Proof.
  intros Hs. induction fuel as [|fuel IH]; intros i Hi Hf; [exact I|].
  cbn [range_up]. destruct (Z.ltb_spec i (len l)) as [Hlt|Hge]; [|exact I].
  specialize (IH (i + step) ltac:(lia) ltac:(lia)).
  cbn [map].
  assert (Hlen : len (py_slice l i (i + step)) = Z.min step (len l - i)).
  { rewrite py_slice_window by lia.
    pose proof (len_skipn l i ltac:(lia)) as Hk.
    unfold len in *. rewrite length_firstn. lia. }
  destruct (range_up fuel (i + step) (len l) step) as [|j r] eqn:E.
  - simpl. lia.
  - apply range_up_head in E. cbn [map] in IH |- *.
    split; [lia|exact IH].
Qed.

Lemma fixed_size_bounds {A} (size : Z) (bs : list (list A)) :
  0 < size -> fixed_size size bs ->
  List.Forall (fun b => 0 < len b <= size) bs.
Proof.
  intros Hs. induction bs as [|b [|b' bs] IH]; intros Hb; constructor.
  - exact Hb.
  - constructor.
  - destruct Hb as [Hb _]. lia.
  - apply IH. exact (proj2 Hb).
Qed.

(** With a positive size, the sub-batches are the texts cut, in order, into
    runs of [batch_size] texts, the last run holding what is left. *)
Lemma sub_batches_spec (texts : list string) (batch_size : Z) :
  0 < batch_size ->
  exists batches,
    sub_batches texts batch_size = Ok batches /\
    List.concat batches = texts /\
    fixed_size batch_size batches /\
    Forall (fun b => 0 < len b <= batch_size) batches.
Proof.
  intros Hs. unfold sub_batches, py_range.
  destruct (Z.eqb_spec batch_size 0); [lia|].
  destruct (Z.ltb_spec 0 batch_size); [|lia].
  eexists. split; [reflexivity|]. split; [|split].
  - rewrite range_up_batches; [reflexivity|lia|lia|]. rewrite Z.sub_0_r.
    unfold len. lia.
  - apply range_up_fixed_size; [lia|lia|]. rewrite Z.sub_0_r. unfold len. lia.
  - apply Forall_map.
    destruct (range_up_bounds (len texts) batch_size
                (Z.to_nat (len texts - 0)) 0) as [Hb|Hb]; [|lia].
    eapply List.Forall_impl; [|exact Hb]. simpl. intros i Hi.
    rewrite py_slice_window by lia.
    pose proof (len_skipn texts i ltac:(lia)) as Hk.
    unfold len in *. rewrite length_firstn. lia.
Qed.

Example sub_batches_abc :
  sub_batches ["a"; "b"; "c"]%string 2 = Ok [["a"; "b"]; ["c"]]%string.
Proof. reflexivity. Qed.

(** *** Results of the embedding calls *)

Lemma local_result (svc : EmbeddingService) (text : string) :
  fst (_embed_with_local_model svc text) =
  match local_model svc with
  | None => Raise no_model
  | Some m => encode m text
  end.
Proof.
  unfold _embed_with_local_model. destruct (local_model svc) as [m|]; [|reflexivity].
  simpl. now destruct (encode m text).
Qed.

Lemma openai_result (svc : EmbeddingService) (text : string)
  (model : option string) :
  fst (_embed_with_openai svc text model) =
  match openai_client svc with
  | None => fst (_embed_with_local_model svc text)
  | Some c =>
      match embeddings_create c (str_or model "text-embedding-3-small") text with
      | Ok v => Ok v
      | Raise _ => fst (_embed_with_local_model svc text)
      end
  end.
Proof.
  unfold _embed_with_openai.
  destruct (openai_client svc) as [c|]; simpl.
  - destruct (embeddings_create c _ text); simpl; [reflexivity|].
    now destruct (_embed_with_local_model svc text).
  - now destruct (_embed_with_local_model svc text).
Qed.

Lemma embed_batches_ok (svc : EmbeddingService) (model : option string)
  (batches : list (list string)) : forall acc vs,
  fst (embed_batches svc model batches acc) = Ok vs <->
  exists ws, vs = acc ++ ws /\
    Forall2 (fun t v => fst (_embed_with_openai svc t model) = Ok v)
            (List.concat batches) ws.
Proof.
  induction batches as [|b batches IH]; intros acc vs; simpl.
  - split.
    + intros H. inversion H; subst. exists []. rewrite app_nil_r.
      split; [reflexivity|constructor].
    + intros (ws & -> & H). inversion H. now rewrite app_nil_r.
  - rewrite bind_ok. split.
    + intros (bv & Hb & Hrest). apply gather_map_ok in Hb.
      apply IH in Hrest. destruct Hrest as (ws & -> & Hws).
      exists (bv ++ ws). rewrite app_assoc. split; [reflexivity|].
      now apply Forall2_app.
    + intros (ws & -> & H). apply Forall2_app_inv_l in H.
      destruct H as (k1 & k2 & H1 & H2 & ->).
      exists k1. split; [now apply gather_map_ok|].
      apply IH. exists k2. now rewrite app_assoc.
Qed.

(** On the Remote strategy, a batch succeeds exactly when every text is
    embedded, and returns the vectors in the order of the texts. *)
Lemma embed_texts_remote (svc : EmbeddingService) (texts : list string)
  (model : option string) (batch_size : Z) (vs : list Vector) :
  0 < batch_size -> is_set (openai_client svc) = true ->
  (fst (embed_texts svc texts model true batch_size) = Ok vs <->
   Forall2 (fun t v => fst (_embed_with_openai svc t model) = Ok v) texts vs).
Proof.
  intros Hs Hc. unfold embed_texts. rewrite Hc. simpl andb. cbv iota.
  destruct (sub_batches_spec texts batch_size Hs) as (bs & Hbs & Hcat & _ & _).
  rewrite bind_ok. unfold lift. simpl fst. rewrite Hbs. split.
  - intros (a & Ha & H). inversion Ha; subst a.
    apply embed_batches_ok in H. destruct H as (ws & -> & H).
    now rewrite Hcat in H.
  - intros H. exists bs. split; [reflexivity|].
    apply embed_batches_ok. exists vs. now rewrite Hcat.
Qed.

(** With a sub-batch size of zero [range] raises; with a negative one it
    is empty, and so is the result. *)
Lemma range_down_from_zero (fuel : nat) (stop step : Z) :
  0 <= stop -> range_down fuel 0 stop step = [].
Proof.
  intros Hs. destruct fuel as [|fuel]; simpl; [reflexivity|].
  destruct (Z.ltb_spec stop 0); [lia|reflexivity].
Qed.

Lemma embed_texts_degenerate (svc : EmbeddingService) (texts : list string)
  (model : option string) (batch_size : Z) :
  is_set (openai_client svc) = true ->
  (batch_size = 0 ->
   embed_texts svc texts model true batch_size =
   (Raise (ValueError "range() arg 3 must not be zero"), [])) /\
  (batch_size < 0 ->
   embed_texts svc texts model true batch_size = (Ok [], [])).
Proof.
  intros Hc. unfold embed_texts. rewrite Hc. simpl andb. cbv iota.
  unfold sub_batches, py_range. split.
  - intros ->. reflexivity.
  - intros Hneg.
    destruct (Z.eqb_spec batch_size 0); [lia|].
    destruct (Z.ltb_spec 0 batch_size); [lia|].
    rewrite range_down_from_zero by apply len_nonneg. reflexivity.
Qed.

Lemma Forall2_In_left {A B} (P : A -> B -> Prop) (l : list A) (l' : list B)
  (x : A) : Forall2 P l l' -> In x l -> exists y, P x y.
Proof.
  induction 1 as [|a b l l' Hab _ IH]; intros Hin; [contradiction|].
  destruct Hin as [-> | Hin]; eauto.
Qed.

(** The Local strategy hands the list to the model in one call. *)
Lemma embed_texts_local (svc : EmbeddingService) (texts : list string)
  (model : option string) (use_openai : bool) (batch_size : Z) :
  use_openai && is_set (openai_client svc) = false ->
  embed_texts svc texts model use_openai batch_size =
  match local_model svc with
  | None => (Raise no_model, [])
  | Some m => (encode_batch m texts, [LocalEncodeBatch texts])
  end.
Proof.
  intros Hpath. unfold embed_texts. rewrite Hpath.
  unfold _embed_with_local_model_batch.
  destruct (local_model svc) as [m|]; [|reflexivity].
  unfold try_except, call. now destruct (encode_batch m texts).
Qed.

(** *** A gateway with a local model and a hosted API that refuses
    the text ["b"] *)

Lemma demo_model_agrees : batch_agrees demo_model.
Proof.
  intros ts vs H. simpl in H. inversion H; subst.
  induction ts; simpl; constructor; auto.
Qed.

(** Three texts, sub-batches of two: the second text falls back to the
    local model, the others keep the hosted vectors, in the input order. *)
Example embed_texts_abc :
  embed_texts both_service ["a"; "b"; "c"]%string None true 2 =
  (Ok [[0.25%float; 0.75%float]; [0%float; 1%float]; [0.25%float; 0.75%float]],
   [RemoteCreate "text-embedding-3-small" "a";
    RemoteCreate "text-embedding-3-small" "b"; LocalEncode "b";
    RemoteCreate "text-embedding-3-small" "c"]).
Proof. vm_compute. reflexivity. Qed.

(** C4, as stated, fails: with a negative sub-batch size the Remote
    strategy has no sub-batch to embed, [range(0, 3, -1)] being empty, and
    returns the empty list for three texts. *)
Lemma batch_claim_fails_on_negative_batch_size :
  ~ batch_claim both_service ["a"; "b"; "c"]%string None true (-1).
Proof.
  intros (vs & H & Hl & _). vm_compute in H. inversion H; subst vs.
  discriminate Hl.
Qed.

Example embed_texts_negative_batch_size :
  embed_texts both_service ["a"; "b"; "c"]%string None true (-1) = (Ok [], []).
Proof. vm_compute. reflexivity. Qed.

(** One call to the local model for the whole list. *)
Example embed_texts_local_abc :
  embed_texts local_only_service ["a"; "b"; "c"]%string None true 32 =
  (Ok [[1%float; 0%float]; [0%float; 1%float]; [0%float; 1%float]],
   [LocalEncodeBatch ["a"; "b"; "c"]%string]).
Proof. vm_compute. reflexivity. Qed.

(** C4, amended: on the Remote strategy with a positive sub-batch size (32
    by default) the texts are cut in order into sub-batches of [batch_size]
    texts, the last one holding what is left, and the per-batch results,
    appended, are the result: the call returns a list exactly when every
    text is embedded (by the hosted API or, for that text, by the local
    model), and the list then holds one vector per text, at the text's
    position; when a text cannot be embedded the call raises and returns no
    list.  A sub-batch size of zero raises [ValueError]; a negative one
    returns the empty list whatever the texts.  The Local strategy hands
    the whole list to the model in one call and returns the model's answer,
    which holds one vector per text in order by the model's contract for
    lists; it raises when the model does, or when no model is loaded. *)
Theorem embed_texts_batches (svc : EmbeddingService)
  (texts : list string) (model : option string) (use_openai : bool)
  (batch_size : Z) :
  let run := embed_texts svc texts model use_openai batch_size in
  let embedded := fun t v => fst (embed_text svc t model use_openai) = Ok v in
  (use_openai && is_set (openai_client svc) = true ->
   (0 < batch_size ->
    (exists batches,
       sub_batches texts batch_size = Ok batches /\
       List.concat batches = texts /\
       fixed_size batch_size batches /\
       fst run = fst (embed_batches svc model batches [])) /\
    (forall vs, fst run = Ok vs <-> Forall2 embedded texts vs) /\
    (forall vs, fst run = Ok vs -> length vs = length texts) /\
    (forall t e, In t texts ->
       fst (embed_text svc t model use_openai) = Raise e ->
       exists e', fst run = Raise e')) /\
   (batch_size = 0 ->
    run = (Raise (ValueError "range() arg 3 must not be zero"), [])) /\
   (batch_size < 0 -> run = (Ok [], []))) /\
  (use_openai && is_set (openai_client svc) = false ->
   (local_model svc = None -> run = (Raise no_model, [])) /\
   (forall m, local_model svc = Some m ->
      run = (encode_batch m texts, [LocalEncodeBatch texts]) /\
      (batch_agrees m ->
       forall vs, encode_batch m texts = Ok vs ->
         length vs = length texts /\ Forall2 embedded texts vs))).
Proof.
  cbv zeta. split.
  - intros Hpath. apply andb_prop in Hpath as [-> Hc].
    assert (Het : forall t, embed_text svc t model true
                            = _embed_with_openai svc t model)
      by (intros t; unfold embed_text; now rewrite Hc).
    split; [|now apply embed_texts_degenerate].
    intros Hs.
    assert (Hiff : forall vs,
              fst (embed_texts svc texts model true batch_size) = Ok vs <->
              Forall2 (fun t v => fst (embed_text svc t model true) = Ok v)
                      texts vs).
    { intros vs. rewrite (embed_texts_remote svc texts model batch_size vs Hs Hc).
      split; intros H; (eapply Forall2_impl; [exact H|]);
        intros t v Hv; simpl in *; [now rewrite Het|now rewrite <- Het]. }
    split; [|split; [exact Hiff|split]].
    + destruct (sub_batches_spec texts batch_size Hs)
        as (bs & Hbs & Hcat & Hsz & _).
      exists bs. repeat split; auto.
      unfold embed_texts. rewrite Hc. simpl andb. cbv iota.
      unfold lift. rewrite Hbs. simpl.
      now destruct (embed_batches svc model bs []).
    + intros vs Hok. apply Hiff in Hok. symmetry.
      eapply Forall2_length; exact Hok.
    + intros t e Hin He.
      destruct (fst (embed_texts svc texts model true batch_size))
        as [vs|e'] eqn:Hrun; [|eauto].
      exfalso. pose proof (proj1 (Hiff vs) eq_refl) as HF.
      destruct (Forall2_In_left _ _ _ _ HF Hin) as [v Hv]. congruence.
  - intros Hpath.
    rewrite (embed_texts_local svc texts model use_openai batch_size Hpath).
    split.
    + intros ->. reflexivity.
    + intros m Hm. rewrite Hm. split; [reflexivity|].
      intros Hagree vs Hb. specialize (Hagree texts vs Hb).
      assert (HF : Forall2 (fun t v =>
                      fst (embed_text svc t model use_openai) = Ok v) texts vs).
      { eapply Forall2_impl; [exact Hagree|]. intros t v Hv. simpl in Hv.
        unfold embed_text. rewrite Hpath, local_result, Hm. exact Hv. }
      split; [|exact HF]. symmetry. eapply Forall2_length; exact HF.
Qed.

(** *** Fallback and configuration *)

(** C5, as stated, fails: with only the hosted API configured (and
    answering), a call with the default strategy flag raises. *)
Lemma gateway_claim_fails_remote_only :
  ~ gateway_claim remote_only_service "a" None false.
Proof.
  intros (_ & H & _). destruct (H eq_refl) as [v Hv]. discriminate Hv.
Qed.

(** The hosted API alone gives no result either when its call fails. *)
Example remote_only_failed_call :
  fst (embed_text remote_only_service "b" None true) = Raise no_model.
Proof. reflexivity. Qed.

(** C5, amended: a failed Remote call is answered by the Local strategy for
    that text alone (in a batch, every other text keeps its Remote vector);
    [embed_text] returns a vector whenever the local model is configured and
    encodes the text, or the Remote flag is set, the client configured and
    its call succeeds; when the local model is not configured it raises
    "No embedding model available" unless that Remote call succeeds, in
    particular when neither strategy is configured. *)
Theorem remote_failure_falls_back_to_local (svc : EmbeddingService)
  (text : string) (model : option string) (use_openai : bool) :
  let remote c := embeddings_create c (str_or model "text-embedding-3-small") in
  (forall c e,
     openai_client svc = Some c -> remote c text = Raise e ->
     fst (_embed_with_openai svc text model) =
     fst (_embed_with_local_model svc text)) /\
  (forall c texts batch_size vs,
     openai_client svc = Some c -> 0 < batch_size ->
     fst (embed_texts svc texts model true batch_size) = Ok vs ->
     Forall2 (fun t v =>
                remote c t = Ok v \/
                (exists e, remote c t = Raise e) /\
                fst (_embed_with_local_model svc t) = Ok v) texts vs) /\
  (forall m v,
     local_model svc = Some m -> encode m text = Ok v ->
     exists v', fst (embed_text svc text model use_openai) = Ok v') /\
  (forall c v,
     use_openai = true -> openai_client svc = Some c -> remote c text = Ok v ->
     fst (embed_text svc text model use_openai) = Ok v) /\
  (local_model svc = None ->
   (use_openai = false \/ openai_client svc = None \/
    exists c e, openai_client svc = Some c /\ remote c text = Raise e) ->
   fst (embed_text svc text model use_openai) = Raise no_model).
Proof.
  cbv zeta. repeat split.
  - intros c e Hc He. now rewrite openai_result, Hc, He.
  - intros c texts batch_size vs Hc Hs Hok.
    apply embed_texts_remote in Hok; [|assumption|now rewrite Hc].
    eapply Forall2_impl; [exact Hok|]. intros t v Hv. simpl in Hv.
    rewrite openai_result, Hc in Hv.
    destruct (embeddings_create c _ t) as [w|e]; [now left|right].
    split; [now exists e|assumption].
  - intros m v Hm Hv. unfold embed_text.
    destruct (use_openai && is_set (openai_client svc)).
    + rewrite openai_result. destruct (openai_client svc) as [c|].
      * destruct (embeddings_create c _ text) as [w|e]; [now exists w|].
        exists v. now rewrite local_result, Hm.
      * exists v. now rewrite local_result, Hm.
    + exists v. now rewrite local_result, Hm.
  - intros c v -> Hc Hv. unfold embed_text. rewrite Hc. simpl.
    now rewrite openai_result, Hc, Hv.
  - intros Hm Hcase. unfold embed_text.
    destruct (use_openai && is_set (openai_client svc)) eqn:Hpath.
    + apply andb_prop in Hpath as [-> Hc]. rewrite openai_result.
      destruct Hcase as [?|[Hn|(c & e & Hc' & He)]]; [discriminate| |].
      * rewrite Hn in Hc. discriminate.
      * now rewrite Hc', He, local_result, Hm.
    + now rewrite local_result, Hm.
Qed.

(** Neither strategy configured: every call raises the configuration error. *)
Example unconfigured_embed_text :
  fst (embed_text unconfigured_service "a" None false) = Raise no_model /\
  fst (embed_text unconfigured_service "a" None true) = Raise no_model.
Proof. split; reflexivity. Qed.

(** C10: with the Remote flag set and no Remote client configured,
    [embed_text] is the Local embedding of the text, with the same outcome
    and the same provider calls, none of which is a Remote call; it returns
    the local model's vector whenever the local model encodes the text. *)
Theorem embed_text_flag_without_client (svc : EmbeddingService)
  (text : string) (model : option string) :
  openai_client svc = None ->
  embed_text svc text model true = _embed_with_local_model svc text /\
  Forall (fun c => is_remote c = false) (snd (embed_text svc text model true)) /\
  (forall m v, local_model svc = Some m -> encode m text = Ok v ->
               fst (embed_text svc text model true) = Ok v).
Proof.
  intros Hc. unfold embed_text. rewrite Hc. simpl. repeat split.
  - unfold _embed_with_local_model. destruct (local_model svc) as [m|]; simpl.
    + destruct (encode m text); simpl; repeat constructor.
    + constructor.
  - intros m v Hm Hv. now rewrite local_result, Hm.
Qed.

(** The Remote flag on a service that has the local model only. *)
Lemma embed_text_flag_without_client_witness :
  embed_text local_only_service "a" None true =
    (Ok [1%float; 0%float], [LocalEncode "a"]) /\
  Forall (fun c => is_remote c = false)
         (snd (embed_text local_only_service "a" None true)).
Proof.
  destruct (embed_text_flag_without_client local_only_service "a" None eq_refl)
    as (H1 & H2 & _).
  split; [rewrite H1; reflexivity|exact H2].
Defined.

(** ** Similarity *)

Example similarity_3_4 :
  compute_similarity float64 [3%float; 4%float] [3%float; 4%float] = 1%float.
Proof. vm_compute. reflexivity. Qed.

Example similarity_zero_vector :
  compute_similarity float64 [3%float; 4%float] [0%float; 0%float] = 0%float.
Proof. vm_compute. reflexivity. Qed.

Example similarity_shape_mismatch :
  compute_similarity float64 [3%float; 4%float] [1%float] = 0%float.
Proof. vm_compute. reflexivity. Qed.

Example find_most_similar_ties :
  find_most_similar float64 [1%float; 0%float]
    [[0%float; 1%float]; [2%float; 0%float]; [0%float; 3%float]; [1%float; 0%float]] 3
  = [(1, 1%float); (3, 1%float); (0, 0%float)].
Proof. vm_compute. reflexivity. Qed.

Example find_most_similar_negative_top_k :
  find_most_similar float64 [1%float; 0%float]
    [[0%float; 1%float]; [2%float; 0%float]; [0%float; 3%float]] (-1)
  = [(1, 1%float); (0, 0%float)].
Proof. vm_compute. reflexivity. Qed.

(** *** Sorting by score *)

Section SortByScore.

Variable K : Arith.
Variable A : Type.
Variable key : A -> num K.

Lemma consistentb_sound (ss : list (num K)) :
  consistentb K ss = true -> consistent K ss.
Proof.
  unfold consistentb. intros H. rewrite forallb_forall in H. split.
  - intros a b Ha Hb Hab. specialize (H a Ha). rewrite forallb_forall in H.
    specialize (H b Hb). apply andb_prop in H as [H _].
    rewrite Hab in H. simpl in H. now destruct (n_ltb K b a).
  - intros a b c Ha Hb Hc Hba Hcb. specialize (H a Ha).
    rewrite forallb_forall in H. specialize (H b Hb).
    apply andb_prop in H as [_ H]. rewrite forallb_forall in H.
    specialize (H c Hc). rewrite Hba, Hcb in H. simpl in H.
    now destruct (n_ltb K c a).
Qed.

Lemma insert_by_In (x y : A) (l : list A) :
  In y (insert_by K key x l) <-> y = x \/ In y l.
Proof.
  induction l as [|z l IH]; simpl.
  - intuition auto.
  - destruct (n_ltb K (key z) (key x)); simpl; [rewrite IH|]; intuition auto.
Qed.

Lemma sort_by_In (y : A) (l : list A) : In y (sort_by K key l) <-> In y l.
Proof.
  induction l as [|x l IH]; simpl; [reflexivity|].
  rewrite insert_by_In, IH. intuition auto.
Qed.

Lemma sort_by_length (l : list A) : length (sort_by K key l) = length l.
Proof.
  induction l as [|x l IH]; simpl; [reflexivity|]. rewrite <- IH.
  generalize (sort_by K key l). clear. intros m.
  induction m as [|z m IHm]; simpl; [reflexivity|].
  destruct (n_ltb K (key z) (key x)); simpl; [now rewrite IHm|reflexivity].
Qed.

Lemma insert_by_sorted (tie : A -> A -> Prop) (ss : list (num K))
  (x : A) (l : list A) :
  consistent K ss -> In (key x) ss -> List.Forall (fun y => In (key y) ss) l ->
  List.Forall (tie x) l ->
  StronglySorted (ascending K A key tie) l ->
  StronglySorted (ascending K A key tie) (insert_by K key x l).
Proof.
  intros [Hasym Htrans] Hx Hl Htie Hs.
  induction l as [|y l IH]; simpl.
  - repeat constructor.
  - inversion Hs as [|? ? Hs' Hy]; subst.
    inversion Hl as [|? ? Hky Hl']; subst.
    inversion Htie as [|? ? Hxy Htie']; subst.
    destruct (n_ltb K (key y) (key x)) eqn:Hlt.
    + constructor; [now apply IH|].
      rewrite List.Forall_forall. intros z Hz. apply insert_by_In in Hz.
      destruct Hz as [->|Hz].
      * split; [now apply Hasym|]. intros H. congruence.
      * rewrite List.Forall_forall in Hy. now apply Hy.
    + constructor; [assumption|]. constructor.
      * split; [assumption|]. intros _. assumption.
      * rewrite List.Forall_forall in Hy, Hl', Htie' |- *.
        intros z Hz. split.
        -- apply (Htrans (key x) (key y) (key z)); auto. now apply Hy.
        -- intros _. now apply Htie'.
Qed.

Lemma sort_by_sorted (tie : A -> A -> Prop) (ss : list (num K)) (l : list A) :
  consistent K ss -> List.Forall (fun y => In (key y) ss) l ->
  StronglySorted tie l ->
  StronglySorted (ascending K A key tie) (sort_by K key l).
Proof.
  intros Hc Hl Hs. induction l as [|x l IH]; simpl; [constructor|].
  inversion Hs as [|? ? Hs' Hx]; subst. inversion Hl as [|? ? Hkx Hl']; subst.
  apply (insert_by_sorted tie ss); auto.
  - rewrite List.Forall_forall in Hl' |- *. intros y Hy.
    apply Hl'. now apply sort_by_In.
  - rewrite List.Forall_forall in Hx |- *. intros y Hy.
    apply Hx. now apply sort_by_In.
Qed.

End SortByScore.

Lemma StronglySorted_snoc {A} (R : A -> A -> Prop) (l : list A) (x : A) :
  StronglySorted R l -> List.Forall (fun y => R y x) l ->
  StronglySorted R (l ++ [x]).
Proof.
  induction l as [|y l IH]; simpl; intros Hs Hx.
  - repeat constructor.
  - inversion Hs; subst. inversion Hx; subst.
    constructor; [now apply IH|].
    apply List.Forall_app. split; [assumption|now constructor].
Qed.

Lemma StronglySorted_rev {A} (R : A -> A -> Prop) (l : list A) :
  StronglySorted R l -> StronglySorted (fun p q => R q p) (rev l).
Proof.
  induction 1 as [|x l Hs IH Hx]; simpl; [constructor|].
  apply StronglySorted_snoc; [assumption|].
  rewrite List.Forall_forall in Hx |- *. intros y Hy.
  apply Hx. now apply in_rev.
Qed.

Lemma firstn_In {A} (n : nat) (l : list A) (x : A) :
  In x (firstn n l) -> In x l.
Proof.
  revert n. induction l as [|y l IH]; intros [|n]; simpl; try tauto.
  intros [->|H]; [now left|right; eauto].
Qed.

Lemma StronglySorted_firstn {A} (R : A -> A -> Prop) (n : nat) (l : list A) :
  StronglySorted R l -> StronglySorted R (firstn n l).
Proof.
  intros Hs. revert n. induction Hs as [|x l Hs IH Hx]; intros [|n]; simpl;
    try constructor; auto.
  rewrite List.Forall_forall in Hx |- *. intros y Hy.
  apply Hx. eapply firstn_In; eauto.
Qed.

(** *** [find_most_similar] *)

Lemma py_slice_prefix {A} (l : list A) (k : Z) :
  py_slice l 0 k = firstn (Z.to_nat (clamp_index l k)) l /\
  0 <= clamp_index l k <= len l.
Proof.
  pose proof (len_nonneg l) as Hn. unfold py_slice.
  assert (H0 : clamp_index l 0 = 0).
  { unfold clamp_index. simpl. lia. }
  rewrite H0. simpl skipn. rewrite Z.sub_0_r. split; [reflexivity|].
  unfold clamp_index. destruct (Z.ltb_spec k 0); lia.
Qed.

Lemma py_slice_prefix_len {A} (l : list A) (k : Z) :
  len (py_slice l 0 k) =
  if k <? 0 then Z.max (len l + k) 0 else Z.min k (len l).
Proof.
  destruct (py_slice_prefix l k) as [-> Hb].
  unfold len in *. rewrite length_firstn.
  unfold clamp_index, len in *. destruct (Z.ltb_spec k 0); lia.
Qed.

Section Scored.

Variable B C : Type.
Variable g : B -> C.

Lemma scored_In (l : list B) : forall k p,
  In p (scored B C g k l) ->
  exists c, k <= fst p /\ nth_error l (Z.to_nat (fst p - k)) = Some c /\
            snd p = g c.
Proof.
  induction l as [|x l IH]; intros k p; simpl; [tauto|].
  intros [<-|H].
  - exists x. simpl. rewrite Z.sub_diag.
    split; [lia|split; reflexivity].
  - destruct (IH _ _ H) as (c & Hk & Hn & Hs). exists c.
    split; [lia|]. split; [|assumption].
    replace (Z.to_nat (fst p - k)) with (S (Z.to_nat (fst p - (k + 1)))) by lia.
    exact Hn.
Qed.

Lemma scored_increasing (l : list B) : forall k,
  StronglySorted (fun p q : Z * C => fst p < fst q) (scored B C g k l).
Proof.
  induction l as [|x l IH]; intros k; simpl; constructor; [apply IH|].
  rewrite List.Forall_forall. intros p Hp.
  destruct (scored_In _ _ _ Hp) as (c & Hk & _). simpl. lia.
Qed.

Lemma scored_length (l : list B) : forall k, length (scored B C g k l) = length l.
Proof.
  induction l as [|x l IH]; intros k; simpl; [reflexivity|].
  f_equal. apply IH.
Qed.

End Scored.

(** C7, as stated, fails: a negative [top_k] cuts from the end of the
    ranking, [similarities[:-1]] keeping two of three candidates. *)
Lemma most_similar_claim_fails_negative_top_k :
  ~ most_similar_claim float64 [1%float; 0%float]
      [[0%float; 1%float]; [2%float; 0%float]; [0%float; 3%float]] (-1).
Proof.
  unfold most_similar_claim. intros (H & _). vm_compute in H. now apply H.
Qed.

(** C7, amended: when the candidates' scores are consistently ordered (no
    NaN among them), the result lists (index, score) pairs in non-increasing
    score order, candidates of equal score in their input order, every score
    being the cosine similarity of the query with the candidate at that
    index; its length is min(topK, number of candidates) for topK >= 0, so
    at most topK, and max(number of candidates + topK, 0) for a negative
    topK. *)
Theorem find_most_similar_ranked (K : Arith) (query : list (num K))
  (candidates : list (list (num K))) (top_k : Z) :
  consistent K (map (compute_similarity K query) candidates) ->
  let r := find_most_similar K query candidates top_k in
  len r = (if top_k <? 0 then Z.max (len candidates + top_k) 0
           else Z.min top_k (len candidates)) /\
  (0 <= top_k -> len r <= top_k) /\
  StronglySorted (ranked K) r /\
  List.Forall (fun p => exists c,
            0 <= fst p /\
            nth_error candidates (Z.to_nat (fst p)) = Some c /\
            snd p = compute_similarity K query c) r.
Proof.
  intros Hc. cbv zeta. unfold find_most_similar.
  fold (scored _ _ (compute_similarity K query) 0 candidates).
  set (sims := scored _ _ (compute_similarity K query) 0 candidates).
  assert (Hlen : len (sort_reverse K snd sims) = len candidates).
  { unfold sort_reverse, len.
    rewrite length_rev, sort_by_length, length_rev. unfold sims.
    now rewrite scored_length. }
  assert (Hin : forall p, In p (sort_reverse K snd sims) -> In p sims).
  { intros p Hp. unfold sort_reverse in Hp. apply in_rev in Hp.
    apply sort_by_In in Hp. now apply in_rev in Hp. }
  assert (Hsorted : StronglySorted (ranked K) (sort_reverse K snd sims)).
  { unfold sort_reverse.
    apply (StronglySorted_rev
             (ascending K _ snd (fun p q : Z * num K => fst q < fst p))).
    apply (sort_by_sorted K _ snd _
             (map (compute_similarity K query) candidates)); [exact Hc| |].
    - rewrite List.Forall_forall. intros p Hp. apply in_rev in Hp.
      destruct (scored_In _ _ _ _ _ _ Hp) as (c & _ & Hn & ->).
      apply in_map. eapply nth_error_In; exact Hn.
    - apply (StronglySorted_rev (fun p q : Z * num K => fst p < fst q)).
      apply scored_increasing. }
  pose proof (py_slice_prefix_len (sort_reverse K snd sims) top_k) as Hl.
  rewrite Hlen in Hl.
  destruct (py_slice_prefix (sort_reverse K snd sims) top_k) as [Hpre _].
  repeat split.
  - exact Hl.
  - intros Hk. rewrite Hl. destruct (Z.ltb_spec top_k 0); lia.
  - rewrite Hpre. now apply StronglySorted_firstn.
  - rewrite Hpre. rewrite List.Forall_forall. intros p Hp.
    apply firstn_In in Hp. apply Hin in Hp.
    destruct (scored_In _ _ _ _ _ _ Hp) as (c & Hk & Hn & Hs).
    exists c. rewrite Z.sub_0_r in Hn. auto.
Qed.

(** Four candidates, two ties, the best three. *)
Lemma find_most_similar_ranked_witness :
  let r := find_most_similar float64 [1%float; 0%float]
             [[0%float; 1%float]; [2%float; 0%float]; [0%float; 3%float];
              [1%float; 0%float]] 3 in
  r = [(1, 1%float); (3, 1%float); (0, 0%float)] /\
  len r <= 3 /\ StronglySorted (ranked float64) r.
Proof.
  cbv zeta. split; [vm_compute; reflexivity|].
  assert (Hc : consistent float64
            (map (compute_similarity float64 [1%float; 0%float])
               [[0%float; 1%float]; [2%float; 0%float]; [0%float; 3%float];
                [1%float; 0%float]]))
    by (apply consistentb_sound; vm_compute; reflexivity).
  destruct (find_most_similar_ranked float64 _ _ 3 Hc) as (_ & Hle & Hs & _).
  split; [apply Hle; lia|exact Hs].
Defined.

(** *** [compute_similarity] *)

Section Cosine.

Variable K : Arith.

(** The three ways out of [compute_similarity]. *)
Lemma compute_similarity_cases (a b : list (num K)) :
  (length a <> length b -> compute_similarity K a b = n_zero K) /\
  (n_eqb K (np_norm K a) (n_zero K) = true \/
   n_eqb K (np_norm K b) (n_zero K) = true ->
   compute_similarity K a b = n_zero K) /\
  (length a = length b ->
   n_eqb K (np_norm K a) (n_zero K) = false ->
   n_eqb K (np_norm K b) (n_zero K) = false ->
   compute_similarity K a b =
   n_div K (n_dot K a b) (n_mul K (np_norm K a) (np_norm K b))).
Proof.
  unfold compute_similarity, np_dot. repeat split.
  - intros Hl. apply Nat.eqb_neq in Hl. now rewrite Hl.
  - intros Hz. destruct (Nat.eqb (length a) (length b)); [|reflexivity].
    destruct Hz as [-> | ->]; [reflexivity|]. now rewrite orb_true_r.
  - intros Hl Ha Hb. apply Nat.eqb_eq in Hl. now rewrite Hl, Ha, Hb.
Qed.

End Cosine.

(** *** Rounding in binary64

    The operations of binary64 are specified by [SpecFloat]: the exact
    result is cut to a mantissa with its round and sticky bits and rounded
    to the nearest even.  In the normal range the rounded result is within
    one unit roundoff, [2^-53], of the exact one. *)

Lemma bpow_pos (e : Z) : (0 < bpow e)%R.
Proof. apply powerRZ_lt. lra. Qed.

Lemma bpow_add (a b : Z) : bpow (a + b) = (bpow a * bpow b)%R.
Proof. apply powerRZ_add. lra. Qed.

Lemma bpow_0 : bpow 0 = 1%R.
Proof. reflexivity. Qed.

Lemma bpow_1 : bpow 1 = 2%R.
Proof. unfold bpow. simpl. lra. Qed.

Lemma bpow_opp (a : Z) : bpow (- a) = (/ bpow a)%R.
Proof. apply powerRZ_neg'. Qed.

Lemma bpow_succ (a : Z) : bpow (a + 1) = (2 * bpow a)%R.
Proof. rewrite bpow_add, bpow_1. lra. Qed.

Lemma bpow_le (a b : Z) : a <= b -> (bpow a <= bpow b)%R.
Proof.
  intros H. replace b with (a + (b - a)) by lia. rewrite bpow_add.
  assert (H1 : (1 <= bpow (b - a))%R).
  { assert (Hn : 0 <= b - a) by lia. revert Hn. generalize (b - a).
    intros n Hn. pattern n. apply natlike_ind; [rewrite bpow_0; lra| |exact Hn].
    intros x Hx IH. unfold Z.succ. rewrite bpow_succ. lra. }
  pose proof (bpow_pos a). nra.
Qed.

Lemma bpow_IZR (n : Z) : 0 <= n -> bpow n = IZR (2 ^ n).
Proof.
  intros Hn. pattern n. apply natlike_ind; [reflexivity| |exact Hn].
  intros x Hx IH. unfold Z.succ. rewrite bpow_succ, IH, Z.pow_add_r by lia.
  rewrite mult_IZR. change (2 ^ 1) with 2. lra.
Qed.

Lemma div2_parity (e : Z) : e - 2 * Z.div2 e = 0 \/ e - 2 * Z.div2 e = 1.
Proof. pose proof (Z.div2_odd e). destruct (Z.odd e); cbn in *; lia. Qed.

Lemma IZR_2_52 : IZR (2 ^ 52) = 4503599627370496%R.
Proof. reflexivity. Qed.

Lemma IZR_2_53 : IZR (2 ^ 53) = 9007199254740992%R.
Proof. reflexivity. Qed.

Lemma pow2_split (d : Z) : 0 < d -> 2 ^ d = 2 * 2 ^ (d - 1).
Proof.
  intros Hd. replace d with (Z.succ (d - 1)) at 1 by lia.
  apply Z.pow_succ_r. lia.
Qed.

Lemma half_ulp_relative (X M : R) :
  (4503599627370496 <= X)%R -> (X - / 2 <= M <= X + / 2)%R ->
  ((1 - u64) * X <= M <= (1 + u64) * X)%R.
Proof. unfold u64. lra. Qed.

Lemma bpow_neg (n : positive) : bpow (Zneg n) = (/ IZR (2 ^ Zpos n))%R.
Proof.
  change (Zneg n) with (- Zpos n). rewrite bpow_opp, bpow_IZR by lia.
  reflexivity.
Qed.

Lemma bpow_m52 : bpow (-52) = (/ 4503599627370496)%R.
Proof. apply (bpow_neg 52). Qed.

Lemma bpow_m53 : bpow (-53) = (/ 9007199254740992)%R.
Proof. apply (bpow_neg 53). Qed.

(** The number of binary digits of a mantissa. *)
Lemma digits2_pos_bounds (m : positive) :
  2 ^ (Zpos (digits2_pos m) - 1) <= Zpos m < 2 ^ Zpos (digits2_pos m).
Proof.
  induction m as [m IH|m IH|]; cbn [digits2_pos].
  - rewrite Pos2Z.inj_succ.
    replace (Z.succ (Zpos (digits2_pos m)) - 1)
      with (Z.succ (Zpos (digits2_pos m) - 1)) by lia.
    rewrite !Z.pow_succ_r by lia. lia.
  - rewrite Pos2Z.inj_succ.
    replace (Z.succ (Zpos (digits2_pos m)) - 1)
      with (Z.succ (Zpos (digits2_pos m) - 1)) by lia.
    rewrite !Z.pow_succ_r by lia. lia.
  - simpl. lia.
Qed.

Lemma digits2_pos_unique (m : positive) (d : Z) :
  2 ^ (d - 1) <= Zpos m < 2 ^ d -> 0 < d -> Zpos (digits2_pos m) = d.
Proof.
  intros [Hlo Hhi] Hd. pose proof (digits2_pos_bounds m) as [Hl Hh].
  destruct (Z.lt_trichotomy (Zpos (digits2_pos m)) d) as [Hlt|[E|Hgt]];
    [|exact E|].
  - assert (2 ^ Zpos (digits2_pos m) <= 2 ^ (d - 1))
      by (apply Z.pow_le_mono_r; lia). lia.
  - assert (2 ^ d <= 2 ^ (Zpos (digits2_pos m) - 1))
      by (apply Z.pow_le_mono_r; lia). lia.
Qed.

Lemma digits2_pos_between (m : positive) (a b : Z) :
  0 <= a -> 2 ^ a <= Zpos m < 2 ^ b -> a + 1 <= Zpos (digits2_pos m) <= b.
Proof.
  intros Ha [Hlo Hhi]. pose proof (digits2_pos_bounds m) as [Hl Hh]. split.
  - destruct (Z_le_gt_dec (a + 1) (Zpos (digits2_pos m))) as [|Hgt]; [lia|].
    assert (2 ^ Zpos (digits2_pos m) <= 2 ^ a)
      by (apply Z.pow_le_mono_r; lia). lia.
  - destruct (Z_le_gt_dec (Zpos (digits2_pos m)) b) as [|Hgt]; [lia|].
    assert (2 ^ b <= 2 ^ (Zpos (digits2_pos m) - 1))
      by (apply Z.pow_le_mono_r; lia). lia.
Qed.

Lemma located_bounds (x : R) (mrs : shr_record) :
  located x mrs -> (IZR (shr_m mrs) <= x < IZR (shr_m mrs) + 1)%R.
Proof.
  intros [_ H]. destruct (shr_r mrs), (shr_s mrs); lra.
Qed.

Lemma shr_1_located (x : R) (mrs : shr_record) :
  located x mrs -> located (x / 2) (shr_1 mrs).
Proof.
  destruct mrs as [m r s]. unfold located. cbn [shr_m shr_r shr_s].
  intros [Hm H]. destruct m as [|p|p]; [| |lia].
  - cbn. split; [lia|]. destruct r, s; cbn; lra.
  - destruct p as [p|p|]; cbn [shr_1 shr_m shr_r shr_s orb].
    + split; [lia|]. rewrite Pos2Z.inj_xI, plus_IZR, mult_IZR in H.
      destruct r, s; cbn; lra.
    + split; [lia|]. rewrite Pos2Z.inj_xO, mult_IZR in H.
      destruct r, s; cbn; lra.
    + split; [lia|]. destruct r, s; cbn; lra.
Qed.

Lemma iter_shr_located (p : positive) : forall (x : R) (mrs : shr_record),
  located x mrs -> located (x * bpow (- Zpos p)) (SpecFloat.iter_pos shr_1 p mrs).
Proof.
  induction p as [p IH|p IH|]; intros x mrs H; cbn [SpecFloat.iter_pos].
  - replace (x * bpow (- Zpos p~1))%R
      with (x / 2 * bpow (- Zpos p) * bpow (- Zpos p))%R.
    + apply IH, IH, shr_1_located, H.
    + rewrite Pos2Z.inj_xI.
      replace (- (2 * Zpos p + 1)) with (- Zpos p + (- Zpos p + - (1))) by lia.
      rewrite !bpow_add, (bpow_opp 1), bpow_1. lra.
  - replace (x * bpow (- Zpos p~0))%R
      with (x * bpow (- Zpos p) * bpow (- Zpos p))%R.
    + apply IH, IH, H.
    + rewrite Pos2Z.inj_xO.
      replace (- (2 * Zpos p)) with (- Zpos p + - Zpos p) by lia.
      rewrite !bpow_add. lra.
  - replace (x * bpow (- Zpos 1))%R with (x / 2)%R.
    + apply shr_1_located, H.
    + rewrite (bpow_opp 1), bpow_1. lra.
Qed.

Lemma shr_located (x : R) (mrs : shr_record) (e n : Z) :
  0 <= n -> located x mrs ->
  located (x * bpow (- n)) (fst (shr mrs e n)) /\ snd (shr mrs e n) = e + n.
Proof.
  intros Hn H. destruct n as [|p|p]; [| |lia]; cbn [shr fst snd].
  - change (- 0) with 0. rewrite bpow_0, Rmult_1_r. split; [exact H|lia].
  - split; [now apply iter_shr_located|reflexivity].
Qed.

Lemma round_located (x : R) (mrs : shr_record) :
  located x mrs ->
  let M := round_nearest_even (shr_m mrs) (loc_of_shr_record mrs) in
  (x - / 2 <= IZR M <= x + / 2)%R /\ shr_m mrs <= M <= shr_m mrs + 1.
Proof.
  destruct mrs as [m r s]. unfold located. cbn [shr_m shr_r shr_s].
  intros [Hm H]. cbv zeta.
  destruct r, s; cbn [loc_of_shr_record round_nearest_even].
  - rewrite plus_IZR. split; [|lia]. lra.
  - destruct (Z.even m); [|rewrite plus_IZR]; (split; [|lia]); lra.
  - split; [|lia]. lra.
  - split; [|lia]. lra.
Qed.

Lemma fexp_normal (e : Z) : -1074 <= e - 53 -> fexp prec emax e = e - 53.
Proof. unfold fexp, SpecFloat.emin, prec, emax. lia. Qed.

Lemma bpow_cancel (k : Z) : (bpow k * bpow (- k))%R = 1%R.
Proof. rewrite <- bpow_add. replace (k + - k) with 0 by lia. apply bpow_0. Qed.

(** Rounding to nearest even in the normal range: the result has a
    53-bit mantissa within half a unit of the scaled value. *)
Lemma binary_round_aux_normal (mz : positive) (ez : Z) (lz : location)
  (x : R) (k : Z) :
  Zpos (digits2_pos mz) = 53 + k -> 0 <= k -> -1074 <= ez + k ->
  located x (shr_record_of_loc (Zpos mz) lz) ->
  exists (m' : positive) (c : Z),
    (c = 0 \/ c = 1) /\ 2 ^ 52 <= Zpos m' < 2 ^ 53 /\
    (4503599627370496 <= x * bpow (- k) < 9007199254740992)%R /\
    (x * bpow (- k) - / 2 <= IZR (Zpos m') * bpow c
       <= x * bpow (- k) + / 2)%R /\
    binary_round_aux prec emax false (Zpos mz) ez lz =
      if ez + k + c <=? 971 then S754_finite false m' (ez + k + c)
      else S754_infinity false.
Proof.
  intros Hd Hk He Hx.
  pose proof (digits2_pos_bounds mz) as Hmz. rewrite Hd in Hmz.
  replace (53 + k - 1) with (52 + k) in Hmz by lia.
  pose proof (located_bounds _ _ Hx) as Hxb.
  assert (Hm : shr_m (shr_record_of_loc (Zpos mz) lz) = Zpos mz)
    by (destruct lz as [|[]]; reflexivity).
  rewrite Hm in Hxb.
  (* the scaled value lies between 2^52 and 2^53 *)
  assert (HX : (IZR (2 ^ 52) <= x * bpow (- k) < IZR (2 ^ 53))%R).
  { assert (H1 : (IZR (2 ^ (52 + k)) <= x)%R).
    { apply Rle_trans with (IZR (Zpos mz)); [apply IZR_le; lia|lra]. }
    assert (H2 : (x < IZR (2 ^ (53 + k)))%R).
    { apply Rlt_le_trans with (IZR (Zpos mz) + 1)%R; [lra|].
      rewrite <- plus_IZR. apply IZR_le. lia. }
    rewrite <- !bpow_IZR, !bpow_add in H1, H2 by lia.
    rewrite <- !bpow_IZR by lia.
    pose proof (bpow_cancel k) as Hc. pose proof (bpow_pos (- k)) as Hp.
    pose proof (bpow_pos k) as Hp'. pose proof (bpow_pos 52).
    pose proof (bpow_pos 53). split.
    - replace (bpow 52) with (bpow 52 * bpow k * bpow (- k))%R
        by (rewrite Rmult_assoc, Hc; lra).
      apply Rmult_le_compat_r; lra.
    - replace (bpow 53) with (bpow 53 * bpow k * bpow (- k))%R
        by (rewrite Rmult_assoc, Hc; lra).
      apply Rmult_lt_compat_r; lra. }
  change (IZR (2 ^ 52)) with 4503599627370496%R in HX.
  change (IZR (2 ^ 53)) with 9007199254740992%R in HX.
  unfold binary_round_aux, shr_fexp. cbn [Zdigits2]. rewrite Hd.
  rewrite fexp_normal by lia.
  replace (53 + k + ez - 53 - ez) with k by lia.
  destruct (shr_located x (shr_record_of_loc (Zpos mz) lz) ez k Hk Hx)
    as [Hloc He'].
  destruct (shr (shr_record_of_loc (Zpos mz) lz) ez k) as [mrs' e'].
  cbn [fst snd] in Hloc, He'. subst e'.
  destruct (round_located _ _ Hloc) as [Hr Hrm].
  set (M := round_nearest_even (shr_m mrs') (loc_of_shr_record mrs')) in *.
  assert (HM : 2 ^ 52 <= M <= 2 ^ 53).
  { split.
    - apply Z.lt_pred_le. apply lt_IZR. unfold Z.pred.
      rewrite plus_IZR. change (IZR (2 ^ 52)) with 4503599627370496%R. lra.
    - apply Z.lt_succ_r. apply lt_IZR. unfold Z.succ.
      rewrite plus_IZR. change (IZR (2 ^ 53)) with 9007199254740992%R. lra. }
  destruct M as [|pm|pm] eqn:EM; [lia| |lia].
  destruct (Z.eq_dec (Zpos pm) (2 ^ 53)) as [Etop|Hne].
  - (* the mantissa was rounded up to 2^53 *)
    exists (4503599627370496%positive), 1. 
    assert (Epm : pm = 9007199254740992%positive) by (change (2 ^ 53) with 9007199254740992 in Etop; congruence).
    subst pm. cbn [Zdigits2].
    change (Zpos (digits2_pos 9007199254740992)) with 54.
    rewrite fexp_normal by lia.
    replace (54 + (ez + k) - 53 - (ez + k)) with 1 by lia.
    cbn [shr shr_record_of_loc SpecFloat.iter_pos shr_1 shr_m].
    split; [now right|]. split; [cbn; lia|]. split; [exact HX|]. split.
    + rewrite bpow_1. replace (IZR 4503599627370496 * 2)%R
        with (IZR 9007199254740992) by lra. exact Hr.
    + replace (ez + k + 1 <=? 971) with (ez + k + 1 <=? emax - prec)
        by reflexivity.
      destruct (ez + k + 1 <=? emax - prec); reflexivity.
  - exists pm, 0. 
    assert (Hd' : Zpos (digits2_pos pm) = 53)
      by (apply digits2_pos_unique; [change (53 - 1) with 52; lia|lia]).
    cbn [Zdigits2]. rewrite Hd'. rewrite fexp_normal by lia.
    replace (53 + (ez + k) - 53 - (ez + k)) with 0 by lia.
    cbn [shr shr_record_of_loc shr_m].
    split; [now left|]. split; [lia|]. split; [exact HX|]. split.
    + rewrite bpow_0, Rmult_1_r. exact Hr.
    + rewrite Z.add_0_r. reflexivity.
Qed.

Lemma fexp_subnormal (e : Z) : e - 53 <= -1074 -> fexp prec emax e = -1074.
Proof. unfold fexp, SpecFloat.emin, prec, emax. lia. Qed.

(** Rounding to nearest even below the normal range: the result is a
    multiple of [2^-1074], within half of it of the exact value. *)
Lemma binary_round_aux_subnormal (mz : positive) (ez : Z) (lz : location)
  (x : R) :
  let k := -1074 - ez in
  0 <= k -> Zpos (digits2_pos mz) <= 52 + k ->
  located x (shr_record_of_loc (Zpos mz) lz) ->
  exists M : Z,
    0 <= M <= 2 ^ 52 /\
    (x * bpow (- k) - / 2 <= IZR M <= x * bpow (- k) + / 2)%R /\
    binary_round_aux prec emax false (Zpos mz) ez lz =
      match M with
      | 0 => S754_zero false
      | Zpos m' => S754_finite false m' (-1074)
      | Zneg _ => S754_nan
      end.
Proof.
  intros k Hk Hd Hx.
  pose proof (digits2_pos_bounds mz) as Hmz.
  pose proof (located_bounds _ _ Hx) as Hxb.
  assert (Hm : shr_m (shr_record_of_loc (Zpos mz) lz) = Zpos mz)
    by (destruct lz as [|[]]; reflexivity).
  rewrite Hm in Hxb.
  assert (HX : (0 <= x * bpow (- k) < 4503599627370496)%R).
  { pose proof (bpow_pos (- k)) as Hp. pose proof (bpow_pos k) as Hp'.
    pose proof (bpow_cancel k) as Hc.
    assert (H0 : (0 < IZR (Zpos mz))%R) by (apply IZR_lt; lia).
    split; [apply Rmult_le_pos; lra|].
    assert (H2 : (x < IZR (2 ^ (52 + k)))%R).
    { apply Rlt_le_trans with (IZR (Zpos mz) + 1)%R; [lra|].
      rewrite <- plus_IZR. apply IZR_le.
      assert (2 ^ Zpos (digits2_pos mz) <= 2 ^ (52 + k))
        by (apply Z.pow_le_mono_r; lia). lia. }
    rewrite <- bpow_IZR, bpow_add in H2 by lia.
    rewrite (bpow_IZR 52) in H2 by lia. rewrite IZR_2_52 in H2.
    replace 4503599627370496%R
      with (4503599627370496 * bpow k * bpow (- k))%R
      by (rewrite Rmult_assoc, Hc; lra).
    apply Rmult_lt_compat_r; lra. }
  unfold binary_round_aux, shr_fexp. cbn [Zdigits2].
  rewrite fexp_subnormal by (unfold k in *; lia).
  replace (-1074 - ez) with k by reflexivity.
  destruct (shr_located x (shr_record_of_loc (Zpos mz) lz) ez k Hk Hx)
    as [Hloc He'].
  destruct (shr (shr_record_of_loc (Zpos mz) lz) ez k) as [mrs' e'].
  cbn [fst snd] in Hloc, He'. subst e'.
  destruct (round_located _ _ Hloc) as [Hr Hrm].
  set (M := round_nearest_even (shr_m mrs') (loc_of_shr_record mrs')) in *.
  assert (HM : 0 <= M <= 2 ^ 52).
  { destruct Hloc as [H0 _]. split; [lia|].
    apply Z.lt_succ_r. apply lt_IZR. unfold Z.succ.
    rewrite plus_IZR, IZR_2_52. lra. }
  exists M. split; [exact HM|]. split; [exact Hr|].
  replace (ez + k) with (-1074) by (unfold k; lia).
  destruct M as [|pm|pm] eqn:EM; [| |lia].
  - reflexivity.
  - assert (Hdm : Zpos (digits2_pos pm) <= 53).
    { pose proof (digits2_pos_bounds pm) as Hpm.
      destruct (Z_le_gt_dec (Zpos (digits2_pos pm)) 53) as [|Hgt]; [lia|].
      assert (2 ^ 53 <= 2 ^ (Zpos (digits2_pos pm) - 1))
        by (apply Z.pow_le_mono_r; lia).
      change (2 ^ 53) with 9007199254740992 in *.
      change (2 ^ 52) with 4503599627370496 in *. lia. }
    cbn [Zdigits2]. rewrite fexp_subnormal by lia.
    reflexivity.
Qed.

Lemma F2R_pos (m : positive) (e : Z) : (0 < F2R m e)%R.
Proof.
  unfold F2R. apply Rmult_lt_0_compat; [|apply bpow_pos].
  apply IZR_lt. lia.
Qed.

Lemma sqrt_between (x a b : R) :
  (0 <= a)%R -> (0 <= b)%R -> (a * a < x < b * b)%R -> (a < R_sqrt.sqrt x < b)%R.
Proof.
  intros Ha Hb [H1 H2]. split.
  - rewrite <- (sqrt_square a Ha). apply sqrt_lt_1_alt. split; [nra|exact H1].
  - rewrite <- (sqrt_square b Hb). apply sqrt_lt_1_alt. split; [nra|exact H2].
Qed.

Lemma sqrt_bpow (e : Z) : R_sqrt.sqrt (bpow (2 * e)) = bpow e.
Proof.
  replace (2 * e) with (e + e) by lia. rewrite bpow_add.
  apply sqrt_square. pose proof (bpow_pos e). lra.
Qed.

(** The integer square root with its remainder locates the real one. *)
Lemma sqrtrem_located (m q r : Z) :
  0 < m -> Z.sqrtrem m = (q, r) ->
  located (R_sqrt.sqrt (IZR m))
    (shr_record_of_loc q
       (if r =? 0 then loc_Exact
        else loc_Inexact (if r <=? q then Lt else Gt))).
Proof.
  intros Hm E. pose proof (Z.sqrtrem_spec m ltac:(lia)) as H.
  rewrite E in H. destruct H as [Hm' Hr].
  assert (Hq : 0 <= q).
  { pose proof (Z.sqrtrem_sqrt m) as Hs. rewrite E in Hs. cbn in Hs.
    subst q. apply Z.sqrt_nonneg. }
  assert (Em : IZR m = (IZR q * IZR q + IZR r)%R)
    by (rewrite Hm', plus_IZR, mult_IZR; reflexivity).
  assert (Hq' : (0 <= IZR q)%R) by (apply IZR_le; exact Hq).
  unfold located. destruct (Z.eqb_spec r 0) as [Er|Er].
  - cbn. split; [exact Hq|]. rewrite Em, Er, Rplus_0_r.
    now apply sqrt_square.
  - assert (Hr1 : (1 <= IZR r)%R) by (apply IZR_le; lia).
    assert (Hr2 : (IZR r <= 2 * IZR q)%R)
      by (rewrite <- mult_IZR; apply IZR_le; lia).
    destruct (Z.leb_spec r q) as [Hle|Hgt]; cbn; (split; [exact Hq|]).
    + apply IZR_le in Hle. apply sqrt_between; nra.
    + assert (IZR q + 1 <= IZR r)%R
        by (rewrite <- plus_IZR; apply IZR_le; lia).
      apply sqrt_between; nra.
Qed.

(** The square root of a positive finite number, normal or subnormal. *)
Lemma sqrt_finite (m : positive) (e : Z) :
  Zpos (digits2_pos m) <= 53 -> -1074 <= e <= 971 ->
  let e' := Z.div2 (Zpos (digits2_pos m) + e + 1) - 53 in
  exists mn : positive,
    SF64sqrt (S754_finite false m e) = S754_finite false mn e' /\
    2 ^ 52 <= Zpos mn < 2 ^ 53 /\
    ((1 - u64) * R_sqrt.sqrt (F2R m e) <= F2R mn e'
       <= (1 + u64) * R_sqrt.sqrt (F2R m e))%R.
Proof.
  intros Hd53 He. cbv zeta.
  set (d := Zpos (digits2_pos m)) in *.
  assert (Hd1 : 1 <= d) by (unfold d; lia).
  set (e' := Z.div2 (d + e + 1) - 53).
  pose proof (div2_parity (d + e + 1)) as Hpar.
  unfold SF64sqrt, SFsqrt, SFsqrt_core_binary. cbn [Zdigits2]. fold d.
  rewrite fexp_normal by lia. fold e'.
  assert (Hpe : 2 * Z.div2 e <= e <= 2 * Z.div2 e + 1)
    by (pose proof (div2_parity e); lia).
  replace (Z.min e' (Z.div2 e)) with e' by (unfold e'; lia).
  set (s := e - 2 * e').
  assert (Hs : s = 105 - d \/ s = 106 - d) by (unfold s, e'; lia).
  assert (Hs52 : 52 <= s) by lia.
  set (m' := match s with
             | 0 => Zpos m
             | Zpos _ => Z.shiftl (Zpos m) s
             | Zneg _ => 0
             end).
  assert (Em' : m' = Zpos m * 2 ^ s).
  { unfold m'. destruct s as [|ps|ps]; [lia| |lia].
    now rewrite Z.shiftl_mul_pow2. }
  assert (Hm'b : 2 ^ 104 <= m' <= 2 ^ 106 - 2 ^ 53).
  { rewrite Em'. pose proof (digits2_pos_bounds m) as Hm. fold d in Hm.
    pose proof (pow2_split d ltac:(lia)) as Hd2.
    set (A := 2 ^ (d - 1)) in *.
    assert (HA : 0 < A) by (apply Z.pow_pos_nonneg; lia).
    destruct Hs as [Es|Es].
    - assert (EA : A * 2 ^ s = 2 ^ 104).
      { unfold A. rewrite <- Z.pow_add_r by lia. f_equal. lia. }
      assert (Hp : 0 < 2 ^ s) by (apply Z.pow_pos_nonneg; lia).
      change (2 ^ 104) with 20282409603651670423947251286016 in *.
      change (2 ^ 106 - 2 ^ 53) with 81129638414606672688589750403072.
      nia.
    - assert (EA : A * 2 ^ s = 2 ^ 105).
      { unfold A. rewrite <- Z.pow_add_r by lia. f_equal. lia. }
      assert (Hp : 2 ^ 53 <= 2 ^ s) by (apply Z.pow_le_mono_r; lia).
      change (2 ^ 105) with 40564819207303340847894502572032 in *.
      change (2 ^ 104) with 20282409603651670423947251286016.
      change (2 ^ 106 - 2 ^ 53) with 81129638414606672688589750403072.
      change (2 ^ 53) with 9007199254740992 in Hp.
      nia. }
  clearbody m'.
  destruct (Z.sqrtrem m') as [q r] eqn:Eqr.
  pose proof (sqrtrem_located m' q r ltac:(lia) Eqr) as Hloc.
  pose proof (Z.sqrtrem_spec m' ltac:(lia)) as Hspec. rewrite Eqr in Hspec.
  destruct Hspec as [Hm'q Hr].
  assert (Hq : 2 ^ 52 <= q < 2 ^ 53) by nia.
  destruct q as [|pq|pq]; [lia| |lia].
  assert (Hdq : Zpos (digits2_pos pq) = 53 + 0)
    by (apply digits2_pos_unique; [change (53 + 0 - 1) with 52; lia|lia]).
  destruct (binary_round_aux_normal pq e' _ _ 0 Hdq ltac:(lia)
              ltac:(unfold e'; lia) Hloc)
    as (mn & c & Hc & Hmn & _ & Hr' & Hres).
  change (- 0) with 0 in Hr'. rewrite bpow_0, Rmult_1_r in Hr'.
  assert (Hsq : (IZR (2 ^ 52) <= R_sqrt.sqrt (IZR m') < IZR (2 ^ 53) - / 2)%R).
  { assert (H1 : (IZR (2 ^ 104) <= IZR m')%R) by (apply IZR_le; lia).
    assert (H2 : (IZR m' <= IZR (2 ^ 106 - 2 ^ 53))%R) by (apply IZR_le; lia).
    change (IZR (2 ^ 104)) with (20282409603651670423947251286016)%R in H1.
    change (IZR (2 ^ 106 - 2 ^ 53))
      with (81129638414606672688589750403072)%R in H2.
    rewrite IZR_2_52, IZR_2_53. split.
    - replace 4503599627370496%R
        with (R_sqrt.sqrt (4503599627370496 * 4503599627370496))
        by (apply sqrt_square; lra).
      apply sqrt_le_1_alt. lra.
    - apply (sqrt_between (IZR m') 0 (9007199254740992 - / 2)); lra. }
  rewrite IZR_2_52, IZR_2_53 in Hsq.
  assert (Ec : c = 0).
  { destruct Hc as [Hc|Hc]; [exact Hc|]. subst c. exfalso.
    rewrite bpow_1 in Hr'.
    assert (H : (IZR (2 ^ 52) <= IZR (Zpos mn))%R) by (apply IZR_le; lia).
    rewrite IZR_2_52 in H. lra. }
  subst c. rewrite bpow_0, Rmult_1_r in Hr'.
  exists mn. split; [|split; [exact Hmn|]].
  - rewrite Hres. replace (e' + 0 + 0) with e' by lia.
    destruct (Z.leb_spec e' 971) as [_|Hbad]; [reflexivity|].
    unfold e' in Hbad. lia.
  - assert (EF : R_sqrt.sqrt (F2R m e) = (R_sqrt.sqrt (IZR m') * bpow e')%R).
    { unfold F2R. replace e with (s + 2 * e') by (unfold s; lia).
      rewrite bpow_add, <- Rmult_assoc, sqrt_mult, sqrt_bpow.
      - rewrite Em', mult_IZR, bpow_IZR by lia. reflexivity.
      - apply Rmult_le_pos; [apply IZR_le; lia|].
        pose proof (bpow_pos s). lra.
      - pose proof (bpow_pos (2 * e')). lra. }
    rewrite EF. unfold F2R, u64. pose proof (bpow_pos e') as Hp.
    split.
    + rewrite <- Rmult_assoc. apply Rmult_le_compat_r; [lra|]. lra.
    + rewrite <- Rmult_assoc. apply Rmult_le_compat_r; [lra|]. lra.
Qed.

(** The square of a normal number away from the ends of the range. *)
Lemma square_normal (mn : positive) (en : Z) :
  2 ^ 52 <= Zpos mn < 2 ^ 53 -> -563 <= en <= 459 ->
  exists (mp : positive) (ep : Z),
    SF64mul (S754_finite false mn en) (S754_finite false mn en)
      = S754_finite false mp ep /\
    2 ^ 52 <= Zpos mp < 2 ^ 53 /\ 2 * en + 52 <= ep <= 2 * en + 53 /\
    ((1 - u64) * (F2R mn en * F2R mn en) <= F2R mp ep
       <= (1 + u64) * (F2R mn en * F2R mn en))%R.
Proof.
  intros Hmn Hen. unfold SF64mul, SFmul. cbn [xorb].
  set (D := (mn * mn)%positive).
  assert (HD : 2 ^ 104 <= Zpos D <= 2 ^ 106 - 2 ^ 54 + 1)
    by (unfold D; rewrite Pos2Z.inj_mul; nia).
  assert (Hk : exists k, (k = 52 \/ k = 53) /\
                         Zpos (digits2_pos D) = 53 + k /\
                         (k = 53 -> 2 ^ 105 <= Zpos D)).
  { destruct (Z.lt_ge_cases (Zpos D) (2 ^ 105)) as [Hlt|Hge].
    - exists 52. split; [now left|]. split; [|lia].
      apply digits2_pos_unique; [change (53 + 52 - 1) with 104|]; lia.
    - exists 53. split; [now right|]. split; [|lia].
      apply digits2_pos_unique; [change (53 + 53 - 1) with 105|]; lia. }
  destruct Hk as (k & Hk & Hd & Hk53).
  assert (Hloc : located (IZR (Zpos D)) (shr_record_of_loc (Zpos D) loc_Exact))
    by (split; [cbn; lia|reflexivity]).
  destruct (binary_round_aux_normal D (en + en) loc_Exact _ k Hd
              ltac:(lia) ltac:(lia) Hloc)
    as (mp & c & Hc & Hmp & HX & Hr & Hres).
  (* a product with a 106-bit mantissa does not round up to 2^53 *)
  assert (Hkc : k + c <= 53).
  { destruct Hk as [-> | ->]; [lia|]. destruct Hc as [-> | ->]; [lia|].
    exfalso. change (Z.opp 53) with (Zneg 53) in Hr.
    rewrite bpow_1, bpow_m53 in Hr.
    assert (H1 : (IZR (Zpos D) <= IZR (2 ^ 106 - 2 ^ 54 + 1))%R)
      by (apply IZR_le; lia).
    change (IZR (2 ^ 106 - 2 ^ 54 + 1))
      with 81129638414606663681390495662081%R in H1.
    assert (H2 : (IZR (2 ^ 52) <= IZR (Zpos mp))%R) by (apply IZR_le; lia).
    rewrite IZR_2_52 in H2. lra. }
  exists mp, (en + en + k + c). split; [|split; [exact Hmp|split; [lia|]]].
  - rewrite Hres. destruct (Z.leb_spec (en + en + k + c) 971); [reflexivity|lia].
  - apply half_ulp_relative in Hr; [|lra].
    assert (E1 : F2R mp (en + en + k + c)
                 = (IZR (Zpos mp) * bpow c * bpow (en + en + k))%R).
    { unfold F2R. replace (en + en + k + c) with (c + (en + en + k)) by lia.
      rewrite bpow_add. lra. }
    assert (E2 : (F2R mn en * F2R mn en)%R
                 = (IZR (Zpos D) * bpow (- k) * bpow (en + en + k))%R).
    { unfold F2R, D. rewrite Pos2Z.inj_mul, mult_IZR.
      replace (en + en + k) with (k + (en + en)) by lia.
      rewrite !bpow_add. pose proof (bpow_cancel k) as Hcan.
      replace (IZR (Zpos mn) * IZR (Zpos mn) * bpow (- k) *
               (bpow k * (bpow en * bpow en)))%R
        with (IZR (Zpos mn) * IZR (Zpos mn) * (bpow k * bpow (- k)) *
              (bpow en * bpow en))%R by ring.
      rewrite Hcan. ring. }
    rewrite E1, E2. pose proof (bpow_pos (en + en + k)) as Hp.
    split; rewrite <- Rmult_assoc; apply Rmult_le_compat_r; lra.
Qed.

(** The square of a normal number whose square is below the normal range
    (or at its lower end). *)
Lemma square_subnormal (mn : positive) (en : Z) :
  2 ^ 52 <= Zpos mn < 2 ^ 53 -> -589 <= en <= -564 ->
  exists M : Z,
    0 <= M <= 2 ^ 52 /\
    (F2R mn en * F2R mn en * bpow 1074 - / 2 <= IZR M
       <= F2R mn en * F2R mn en * bpow 1074 + / 2)%R /\
    SF64mul (S754_finite false mn en) (S754_finite false mn en) =
      match M with
      | 0 => S754_zero false
      | Zpos m' => S754_finite false m' (-1074)
      | Zneg _ => S754_nan
      end.
Proof.
  intros Hmn Hen. unfold SF64mul, SFmul. cbn [xorb].
  set (D := (mn * mn)%positive).
  assert (HD : 2 ^ 104 <= Zpos D < 2 ^ 106)
    by (unfold D; rewrite Pos2Z.inj_mul; nia).
  assert (Hd : Zpos (digits2_pos D) <= 106).
  { pose proof (digits2_pos_bounds D) as HDb.
    destruct (Z_le_gt_dec (Zpos (digits2_pos D)) 106) as [|Hgt]; [lia|].
    assert (2 ^ 106 <= 2 ^ (Zpos (digits2_pos D) - 1))
      by (apply Z.pow_le_mono_r; lia). lia. }
  assert (Hloc : located (IZR (Zpos D)) (shr_record_of_loc (Zpos D) loc_Exact))
    by (split; [cbn; lia|reflexivity]).
  destruct (binary_round_aux_subnormal D (en + en) loc_Exact _
              ltac:(lia) ltac:(lia) Hloc)
    as (M & HM & Hr & Hres).
  exists M. split; [exact HM|]. split; [|exact Hres].
  assert (E : (F2R mn en * F2R mn en * bpow 1074)%R
              = (IZR (Zpos D) * bpow (- (-1074 - (en + en))))%R).
  { unfold F2R, D. rewrite Pos2Z.inj_mul, mult_IZR.
    replace (- (-1074 - (en + en))) with (en + en + 1074) by lia.
    rewrite !bpow_add. ring. }
  rewrite E. exact Hr.
Qed.

(** The quotient and remainder of a division locate the real quotient. *)
Lemma div_located (a b q r : Z) :
  0 <= a -> 0 < b -> Z.div_eucl a b = (q, r) ->
  located (IZR a / IZR b) (shr_record_of_loc q (new_location b r)).
Proof.
  intros Ha Hb E. pose proof (Z_div_mod a b ltac:(lia)) as H.
  rewrite E in H. destruct H as [Hab Hr].
  assert (Hq : 0 <= q) by nia.
  assert (Hb' : (0 < IZR b)%R) by (apply IZR_lt; lia).
  set (t := (IZR r / IZR b)%R).
  assert (Et : (t * IZR b = IZR r)%R) by (unfold t; field; lra).
  assert (Ex : (IZR a / IZR b = IZR q + t)%R).
  { unfold t. rewrite Hab, plus_IZR, mult_IZR. field. lra. }
  rewrite Ex. clearbody t.
  assert (Hcmp : forall c, (2 * r ?= b) = c ->
            located (IZR q + t)
              (shr_record_of_loc q (if r =? 0 then loc_Exact else loc_Inexact c))).
  { intros c Hc. destruct (Z.eqb_spec r 0) as [Er|Er].
    - split; [exact Hq|]. cbn. rewrite Er in Et. nra.
    - assert (Hr1 : (1 <= IZR r)%R) by (apply IZR_le; lia).
      destruct c; (split; [exact Hq|]); cbn.
      + apply Z.compare_eq in Hc. apply (f_equal IZR) in Hc.
        rewrite mult_IZR in Hc. nra.
      + rewrite Z.compare_lt_iff in Hc. apply IZR_lt in Hc.
        rewrite mult_IZR in Hc. nra.
      + rewrite Z.compare_gt_iff in Hc. apply IZR_lt in Hc.
        rewrite mult_IZR in Hc. destruct Hr as [_ Hr]. apply IZR_lt in Hr. nra. }
  unfold new_location. destruct (Z.even b) eqn:Eb.
  - unfold new_location_even. now apply Hcmp.
  - unfold new_location_odd.
    assert (Hodd : 2 * r <> b).
    { intros Heq. rewrite <- Heq, Z.even_mul in Eb. discriminate. }
    destruct (2 * r + 1 ?= b) eqn:Hc.
    + apply Hcmp. apply Z.compare_eq in Hc. apply Z.compare_lt_iff. lia.
    + apply Hcmp. rewrite Z.compare_lt_iff in Hc. apply Z.compare_lt_iff. lia.
    + apply Hcmp. rewrite Z.compare_gt_iff in Hc. apply Z.compare_gt_iff. lia.
Qed.

(** The quotient of two positive finite numbers of about the same size. *)
Lemma div_finite (m1 : positive) (e1 : Z) (m2 : positive) (e2 : Z) :
  Zpos (digits2_pos m1) <= 53 -> Zpos (digits2_pos m2) <= 53 ->
  -2 <= Zpos (digits2_pos m1) + e1 - (Zpos (digits2_pos m2) + e2) <= 2 ->
  exists (mr : positive) (er : Z),
    SF64div (S754_finite false m1 e1) (S754_finite false m2 e2)
      = S754_finite false mr er /\
    2 ^ 52 <= Zpos mr < 2 ^ 53 /\
    ((1 - u64) * (F2R m1 e1 / F2R m2 e2) <= F2R mr er
       <= (1 + u64) * (F2R m1 e1 / F2R m2 e2))%R.
Proof.
  intros Hd1 Hd2 He. unfold SF64div, SFdiv, SFdiv_core_binary.
  cbn [xorb Zdigits2].
  set (d1 := Zpos (digits2_pos m1)) in *. set (d2 := Zpos (digits2_pos m2)) in *.
  assert (Hd1' : 1 <= d1) by (unfold d1; lia).
  assert (Hd2' : 1 <= d2) by (unfold d2; lia).
  rewrite fexp_normal by lia.
  set (e' := d1 + e1 - (d2 + e2) - 53).
  replace (Z.min e' (e1 - e2)) with e' by (unfold e'; lia).
  set (s := e1 - e2 - e').
  assert (Es : s = 53 - d1 + d2) by (unfold s, e'; lia).
  assert (Hs : 1 <= s) by lia.
  set (a := match s with
            | 0 => Zpos m1
            | Zpos _ => Z.shiftl (Zpos m1) s
            | Zneg _ => 0
            end).
  assert (Ea : a = Zpos m1 * 2 ^ s).
  { unfold a. destruct s as [|ps|ps]; [lia| |lia].
    now rewrite Z.shiftl_mul_pow2. }
  clearbody a.
  pose proof (digits2_pos_bounds m1) as Hm1. fold d1 in Hm1.
  pose proof (digits2_pos_bounds m2) as Hm2. fold d2 in Hm2.
  pose proof (pow2_split d1 ltac:(lia)) as Hp1.
  pose proof (pow2_split d2 ltac:(lia)) as Hp2.
  set (B := 2 ^ (d2 - 1)) in *.
  assert (HB : 0 < B) by (apply Z.pow_pos_nonneg; lia).
  assert (Hab : 2 ^ 52 * (2 * B) <= a < 2 ^ 53 * (2 * B)).
  { rewrite Ea.
    assert (E1 : 2 ^ (d1 - 1) * 2 ^ s = 2 ^ 52 * (2 * B)).
    { rewrite <- Hp2, <- !Z.pow_add_r by lia. f_equal. lia. }
    assert (0 < 2 ^ s) by (apply Z.pow_pos_nonneg; lia).
    change (2 ^ 52) with 4503599627370496 in *.
    change (2 ^ 53) with 9007199254740992 in *.
    set (A := 2 ^ (d1 - 1)) in *. nia. }
  destruct (Z.div_eucl a (Zpos m2)) as [q r] eqn:E.
  pose proof (div_located a (Zpos m2) q r ltac:(lia) ltac:(lia) E) as Hloc.
  pose proof (Z_div_mod a (Zpos m2) ltac:(lia)) as H.
  rewrite E in H. destruct H as [Haq Hr].
  assert (Hq : 2 ^ 52 <= q < 2 ^ 54).
  { change (2 ^ 52) with 4503599627370496 in *.
    change (2 ^ 53) with 9007199254740992 in *.
    change (2 ^ 54) with 18014398509481984. nia. }
  destruct q as [|pq|pq]; [lia| |lia].
  assert (Hk : exists k, (k = 0 \/ k = 1) /\ Zpos (digits2_pos pq) = 53 + k).
  { destruct (Z.lt_ge_cases (Zpos pq) (2 ^ 53)) as [Hlt|Hge].
    - exists 0. split; [now left|].
      apply digits2_pos_unique; [change (53 + 0 - 1) with 52|]; lia.
    - exists 1. split; [now right|].
      apply digits2_pos_unique; [change (53 + 1 - 1) with 53|]; lia. }
  destruct Hk as (k & Hk & Hd).
  destruct (binary_round_aux_normal pq e' _ _ k Hd ltac:(lia)
              ltac:(unfold e'; lia) Hloc)
    as (mr & c & Hc & Hmr & HX & Hr' & Hres).
  exists mr, (e' + k + c). split; [|split; [exact Hmr|]].
  - rewrite Hres.
    destruct (Z.leb_spec (e' + k + c) 971); [reflexivity|unfold e' in *; lia].
  - apply half_ulp_relative in Hr'; [|lra].
    assert (E1 : F2R mr (e' + k + c)
                 = (IZR (Zpos mr) * bpow c * bpow (e' + k))%R).
    { unfold F2R. replace (e' + k + c) with (c + (e' + k)) by lia.
      rewrite bpow_add. lra. }
    assert (E2 : (F2R m1 e1 / F2R m2 e2)%R
                 = (IZR a / IZR (Zpos m2) * bpow (- k) * bpow (e' + k))%R).
    { unfold F2R. rewrite Ea, mult_IZR, <- bpow_IZR by lia.
      replace e1 with (s + (e' + e2)) at 1 by (unfold s; lia).
      replace (e' + k) with (k + e') by lia.
      rewrite !bpow_add. pose proof (bpow_cancel k) as Hcan.
      pose proof (bpow_pos e2). pose proof (bpow_pos k).
      assert (0 < IZR (Zpos m2))%R by (apply IZR_lt; lia).
      replace (IZR (Zpos m1) * bpow s / IZR (Zpos m2) * bpow (- k) *
               (bpow k * bpow e'))%R
        with (IZR (Zpos m1) * bpow s / IZR (Zpos m2) * (bpow k * bpow (- k)) *
              bpow e')%R by (field; lra).
      rewrite Hcan. field. lra. }
    rewrite E1, E2. pose proof (bpow_pos (e' + k)) as Hp.
    split; rewrite <- Rmult_assoc; apply Rmult_le_compat_r; lra.
Qed.

(** A quotient rounded within one unit roundoff, of two numbers within
    [lo] and [hi] of each other, is within eight unit roundoffs of one. *)
Lemma ratio_near_one (sigma pi rho lo hi : R) :
  (0 < sigma)%R -> (0 < lo)%R ->
  (1 + u64 <= (1 + 8 * u64) * lo)%R -> ((1 - 8 * u64) * hi <= 1 - u64)%R ->
  (lo * sigma <= pi <= hi * sigma)%R ->
  ((1 - u64) * (sigma / pi) <= rho <= (1 + u64) * (sigma / pi))%R ->
  (1 - 8 * u64 <= rho <= 1 + 8 * u64)%R.
Proof.
  intros Hs Hlo Hlo8 Hhi8 Hpi Hrho.
  assert (Hu : (0 < u64 < / 1000)%R) by (unfold u64; lra).
  assert (Hpipos : (0 < pi)%R) by nra.
  set (q := (sigma / pi)%R) in *.
  assert (Eq : (q * pi = sigma)%R) by (unfold q; field; lra).
  assert (Hq : (0 < q)%R) by (unfold q; apply Rdiv_lt_0_compat; lra).
  split.
  - apply Rle_trans with ((1 - u64) * q)%R; [|lra].
    apply Rmult_le_reg_r with pi; [exact Hpipos|].
    rewrite Rmult_assoc, Eq.
    apply Rle_trans with ((1 - 8 * u64) * (hi * sigma))%R.
    + apply Rmult_le_compat_l; lra.
    + rewrite <- Rmult_assoc. apply Rmult_le_compat_r; lra.
  - apply Rle_trans with ((1 + u64) * q)%R; [lra|].
    apply Rmult_le_reg_r with pi; [exact Hpipos|].
    rewrite Rmult_assoc, Eq.
    apply Rle_trans with ((1 + 8 * u64) * (lo * sigma))%R.
    + rewrite <- Rmult_assoc. apply Rmult_le_compat_r; lra.
    + apply Rmult_le_compat_l; lra.
Qed.

(** The square of a rounded square root. *)
Lemma square_of_root (sigma nu : R) :
  (0 < sigma)%R ->
  ((1 - u64) * R_sqrt.sqrt sigma <= nu <= (1 + u64) * R_sqrt.sqrt sigma)%R ->
  ((1 - u64) * (1 - u64) * sigma <= nu * nu
     <= (1 + u64) * (1 + u64) * sigma)%R.
Proof.
  intros Hs Hnu. set (t := R_sqrt.sqrt sigma) in *.
  assert (Ht : (0 < t)%R) by (apply sqrt_lt_R0; exact Hs).
  assert (Et : (t * t = sigma)%R) by (apply sqrt_sqrt; lra).
  assert (Hu : (0 < u64 < / 1000)%R) by (unfold u64; lra).
  rewrite <- Et. split.
  - replace ((1 - u64) * (1 - u64) * (t * t))%R
      with (((1 - u64) * t) * ((1 - u64) * t))%R by ring.
    apply Rmult_le_compat; nra.
  - replace ((1 + u64) * (1 + u64) * (t * t))%R
      with (((1 + u64) * t) * ((1 + u64) * t))%R by ring.
    apply Rmult_le_compat; nra.
Qed.

(** The binary64 numbers within eight unit roundoffs of one. *)
Lemma near_one_candidates (mr : positive) (er : Z) :
  2 ^ 52 <= Zpos mr < 2 ^ 53 ->
  (1 - 8 * u64 <= F2R mr er <= 1 + 8 * u64)%R ->
  (er = -53 /\ 2 ^ 53 - 8 <= Zpos mr) \/ (er = -52 /\ Zpos mr <= 2 ^ 52 + 4).
Proof.
  intros Hm Hv. unfold F2R, u64 in Hv.
  assert (Hm1 : (4503599627370496 <= IZR (Zpos mr))%R)
    by (rewrite <- IZR_2_52; apply IZR_le; lia).
  assert (Hm2 : (IZR (Zpos mr) <= 9007199254740991)%R)
    by (change 9007199254740991%R with (IZR (2 ^ 53 - 1)); apply IZR_le; lia).
  pose proof (bpow_pos er) as Hp.
  destruct (Z_le_gt_dec er (-54)) as [Hlow|Hlow].
  { exfalso. apply bpow_le in Hlow.
    assert (E : bpow (-54) = (/ 18014398509481984)%R) by apply (bpow_neg 54).
    rewrite E in Hlow. nra. }
  destruct (Z_le_gt_dec (-51) er) as [Hhigh|Hhigh].
  { exfalso. apply bpow_le in Hhigh.
    assert (E : bpow (-51) = (/ 2251799813685248)%R) by apply (bpow_neg 51).
    rewrite E in Hhigh. nra. }
  assert (Her : er = -53 \/ er = -52) by lia.
  destruct Her as [-> | ->]; [left|right]; (split; [reflexivity|]).
  - rewrite bpow_m53 in Hv. apply le_IZR.
    change (IZR (2 ^ 53 - 8)) with 9007199254740984%R. lra.
  - rewrite bpow_m52 in Hv. apply le_IZR.
    change (IZR (2 ^ 52 + 4)) with 4503599627370500%R. lra.
Qed.

(** A positive normal number, by its mantissa and exponent. *)
Lemma classify_normal (s : float) :
  classify s = PNormal ->
  exists m e, Prim2SF s = S754_finite false m e /\ normal64 m e.
Proof.
  intros Hc. rewrite classify_spec in Hc. pose proof (Prim2SF_valid s) as Hv.
  destruct (Prim2SF s) as [[]|[]| |sg m e]; try discriminate.
  unfold SF64classify, SFclassify in Hc.
  destruct (Z.eqb_spec (Zpos (digits2_pos m)) prec) as [Hd|];
    destruct sg; try discriminate.
  exists m, e. split; [reflexivity|].
  pose proof (digits2_pos_bounds m) as Hb. rewrite Hd in Hb.
  unfold valid_binary, bounded, canonical_mantissa in Hv.
  apply andb_prop in Hv as [Hcan Hmax]. rewrite Hd in Hcan.
  apply Z.eqb_eq in Hcan. apply Z.leb_le in Hmax.
  unfold fexp, SpecFloat.emin, prec, emax in *.
  split; [split; [exact (proj1 Hb)|exact (proj2 Hb)]|lia].
Qed.

(** A positive subnormal number, by its mantissa. *)
Lemma classify_subnormal (s : float) :
  classify s = PSubn ->
  exists m, Prim2SF s = S754_finite false m (-1074) /\
            Zpos (digits2_pos m) <= 52.
Proof.
  intros Hc. rewrite classify_spec in Hc. pose proof (Prim2SF_valid s) as Hv.
  destruct (Prim2SF s) as [[]|[]| |sg m e]; try discriminate.
  unfold SF64classify, SFclassify in Hc.
  destruct (Z.eqb_spec (Zpos (digits2_pos m)) prec) as [|Hd];
    destruct sg; try discriminate.
  unfold valid_binary, bounded, canonical_mantissa in Hv.
  apply andb_prop in Hv as [Hcan Hmax].
  apply Z.eqb_eq in Hcan. apply Z.leb_le in Hmax.
  unfold fexp, SpecFloat.emin, prec, emax in *.
  assert (He : e = -1074) by lia. subst e.
  exists m. split; [reflexivity|lia].
Qed.

Lemma near_one_float (r : float) (mr : positive) (er : Z) :
  Prim2SF r = S754_finite false mr er ->
  2 ^ 52 <= Zpos mr < 2 ^ 53 ->
  (1 - 8 * u64 <= F2R mr er <= 1 + 8 * u64)%R ->
  near_one r = true /\ close r 1 = true.
Proof.
  intros Hr Hm Hv. rewrite <- (SF2Prim_Prim2SF r), Hr.
  destruct (near_one_candidates mr er Hm Hv) as [[-> Hlo]|[-> Hhi]].
  - assert (H : Zpos mr = 9007199254740984 \/ Zpos mr = 9007199254740985 \/
                Zpos mr = 9007199254740986 \/ Zpos mr = 9007199254740987 \/
                Zpos mr = 9007199254740988 \/ Zpos mr = 9007199254740989 \/
                Zpos mr = 9007199254740990 \/ Zpos mr = 9007199254740991)
      by lia.
    repeat destruct H as [H|H]; injection H as ->;
      split; vm_compute; reflexivity.
  - assert (H : Zpos mr = 4503599627370496 \/ Zpos mr = 4503599627370497 \/
                Zpos mr = 4503599627370498 \/ Zpos mr = 4503599627370499 \/
                Zpos mr = 4503599627370500)
      by lia.
    repeat destruct H as [H|H]; injection H as ->;
      split; vm_compute; reflexivity.
Qed.

(** The quotient of a positive normal number by the rounded square of its
    rounded square root. *)
Lemma self_ratio_normal (s : float) :
  classify s = PNormal ->
  let n := PrimFloat.sqrt s in
  let r := (s / (n * n))%float in
  (n =? 0)%float = false /\ near_one r = true /\ close r 1 = true.
Proof.
  intros Hc. cbv zeta.
  destruct (classify_normal s Hc) as (ms & es & Hs & Hms & Hes).
  assert (Hd : Zpos (digits2_pos ms) = 53)
    by (apply digits2_pos_unique; [change (53 - 1) with 52; lia|lia]).
  destruct (sqrt_finite ms es ltac:(lia) Hes) as (mn & Hn & Hmn & Hnu).
  rewrite Hd in Hn, Hnu. set (en := Z.div2 (53 + es + 1) - 53) in *.
  pose proof (div2_parity (53 + es + 1)) as Hpar.
  assert (Hen : -563 <= en <= 459) by (unfold en; lia).
  destruct (square_normal mn en Hmn Hen) as (mp & ep & Hp & Hmp & Hep & Hpi).
  assert (Hdp : Zpos (digits2_pos mp) = 53)
    by (apply digits2_pos_unique; [change (53 - 1) with 52; lia|lia]).
  destruct (div_finite ms es mp ep ltac:(lia) ltac:(lia)
              ltac:(rewrite Hd, Hdp; unfold en in Hep; lia))
    as (mr & er & Hr & Hmr & Hrho).
  assert (En : Prim2SF (PrimFloat.sqrt s) = S754_finite false mn en)
    by (rewrite sqrt_spec, Hs; exact Hn).
  assert (Ep : Prim2SF (PrimFloat.sqrt s * PrimFloat.sqrt s)
               = S754_finite false mp ep)
    by (rewrite mul_spec, En; exact Hp).
  assert (Er : Prim2SF (s / (PrimFloat.sqrt s * PrimFloat.sqrt s))
               = S754_finite false mr er)
    by (rewrite div_spec, Hs, Ep; exact Hr).
  split.
  - rewrite FloatAxioms.eqb_spec, En. reflexivity.
  - apply (near_one_float _ mr er Er Hmr).
    set (sigma := F2R ms es) in *. set (nu := F2R mn en) in *.
    assert (Hsig : (0 < sigma)%R) by apply F2R_pos.
    pose proof (square_of_root sigma nu Hsig Hnu) as Hnu2.
    assert (Hu : (0 < u64 < / 1000)%R) by (unfold u64; lra).
    apply (ratio_near_one sigma (F2R mp ep) _
             ((1 - u64) * ((1 - u64) * (1 - u64)))
             ((1 + u64) * ((1 + u64) * (1 + u64))));
      [exact Hsig| |unfold u64; lra|unfold u64; lra| |exact Hrho].
    + repeat apply Rmult_lt_0_compat; lra.
    + split.
      * apply Rle_trans with ((1 - u64) * (nu * nu))%R; [|lra].
        rewrite Rmult_assoc. apply Rmult_le_compat_l; lra.
      * apply Rle_trans with ((1 + u64) * (nu * nu))%R; [lra|].
        rewrite Rmult_assoc. apply Rmult_le_compat_l; lra.
Qed.

(** The same quotient for a positive subnormal number: the square of the
    root is the number itself, or next to it. *)
Lemma self_ratio_subnormal (s : float) :
  classify s = PSubn ->
  let n := PrimFloat.sqrt s in
  let r := (s / (n * n))%float in
  (n =? 0)%float = false /\ near_one r = true /\ close r 1 = true.
Proof.
  intros Hc. cbv zeta.
  destruct (classify_subnormal s Hc) as (ms & Hs & Hd).
  set (d := Zpos (digits2_pos ms)) in *.
  assert (Hd1 : 1 <= d) by (unfold d; lia).
  destruct (sqrt_finite ms (-1074) ltac:(fold d; lia) ltac:(lia))
    as (mn & Hn & Hmn & Hnu).
  fold d in Hn, Hnu. set (en := Z.div2 (d + -1074 + 1) - 53) in *.
  assert (Hen : -589 <= en <= -564).
  { pose proof (div2_parity (d + -1074 + 1)). unfold en. lia. }
  destruct (square_subnormal mn en Hmn Hen) as (M & HM & HMr & Hp).
  (* the scaled square is the mantissa of [s], up to two unit roundoffs *)
  set (sigma := F2R ms (-1074)) in *. set (nu := F2R mn en) in *.
  assert (Hsig : (0 < sigma)%R) by apply F2R_pos.
  pose proof (square_of_root sigma nu Hsig Hnu) as Hnu2.
  assert (Ems : (sigma * bpow 1074 = IZR (Zpos ms))%R).
  { unfold sigma, F2R. rewrite Rmult_assoc.
    replace (bpow (-1074) * bpow 1074)%R with 1%R; [lra|].
    rewrite Rmult_comm. symmetry. apply (bpow_cancel 1074). }
  pose proof (bpow_pos 1074) as Hb.
  assert (HX : ((1 - u64) * (1 - u64) * IZR (Zpos ms) <= nu * nu * bpow 1074
                <= (1 + u64) * (1 + u64) * IZR (Zpos ms))%R).
  { rewrite <- Ems, <- !Rmult_assoc.
    split; apply Rmult_le_compat_r; lra. }
  set (X := (nu * nu * bpow 1074)%R) in *.
  pose proof (digits2_pos_bounds ms) as Hmsb. fold d in Hmsb.
  assert (Hms52 : Zpos ms < 2 ^ 52).
  { assert (2 ^ d <= 2 ^ 52) by (apply Z.pow_le_mono_r; lia). lia. }
  assert (Hms1 : (1 <= IZR (Zpos ms))%R) by (apply IZR_le; lia).
  assert (Hms2 : (IZR (Zpos ms) < 4503599627370496)%R)
    by (rewrite <- IZR_2_52; apply IZR_lt; exact Hms52).
  assert (HMms : (Zpos ms < 2 ^ 51 -> M = Zpos ms) /\
                 Zpos ms - 1 <= M <= Zpos ms + 1).
  { unfold u64 in HX. split.
    - intros Hsmall.
      assert (H51 : (IZR (Zpos ms) <= 2251799813685247)%R)
        by (change 2251799813685247%R with (IZR (2 ^ 51 - 1));
            apply IZR_le; lia).
      assert (H1 : (IZR M < IZR (Zpos ms) + 1)%R) by lra.
      assert (H2 : (IZR (Zpos ms) < IZR M + 1)%R) by lra.
      rewrite <- plus_IZR in H1, H2. apply lt_IZR in H1, H2. lia.
    - assert (H1 : (IZR M < IZR (Zpos ms) + 2)%R) by lra.
      assert (H2 : (IZR (Zpos ms) < IZR M + 2)%R) by lra.
      rewrite <- plus_IZR in H1, H2. apply lt_IZR in H1, H2. lia. }
  destruct HMms as [Hsmall Hnear].
  assert (HMpos : 0 < M).
  { destruct (Z_lt_ge_dec (Zpos ms) (2 ^ 51)) as [Hlt|Hge];
      [rewrite (Hsmall Hlt); lia|].
    change (2 ^ 51) with 2251799813685248 in Hge. lia. }
  destruct M as [|pm|pm]; [lia| |lia].
  (* the digits of the two mantissas *)
  assert (Hdig : Zpos (digits2_pos pm) <= 53 /\
                 -2 <= d - Zpos (digits2_pos pm) <= 2).
  { destruct (Z_lt_ge_dec (Zpos ms) (2 ^ 51)) as [Hlt|Hge].
    - rewrite (Hsmall Hlt) in *. injection (Hsmall Hlt) as ->. fold d. lia.
    - assert (E52 : d = 52).
      { apply digits2_pos_unique; [change (52 - 1) with 51; lia|lia]. }
      pose proof (digits2_pos_between pm 50 53 ltac:(lia)) as Hpm.
      change (2 ^ 51) with 2251799813685248 in Hge.
      change (2 ^ 52) with 4503599627370496 in *.
      change (2 ^ 50) with 1125899906842624 in Hpm.
      change (2 ^ 53) with 9007199254740992 in Hpm.
      lia. }
  destruct Hdig as [Hdp Hdd].
  destruct (div_finite ms (-1074) pm (-1074) ltac:(fold d; lia) Hdp
              ltac:(fold d; lia))
    as (mr & er & Hr & Hmr & Hrho).
  fold sigma in Hrho. set (pi := F2R pm (-1074)) in *.
  assert (Hpi : ((1 - 4 * u64) * sigma <= pi <= (1 + 4 * u64) * sigma)%R).
  { assert (HZ : ((1 - 4 * u64) * IZR (Zpos ms) <= IZR (Zpos pm)
                  <= (1 + 4 * u64) * IZR (Zpos ms))%R).
    { destruct (Z_lt_ge_dec (Zpos ms) (2 ^ 51)) as [Hlt|Hge].
      - rewrite (Hsmall Hlt). unfold u64. lra.
      - assert (H51 : (2251799813685248 <= IZR (Zpos ms))%R)
          by (change 2251799813685248%R with (IZR (2 ^ 51));
              apply IZR_le; lia).
        assert (H1 : (IZR (Zpos ms) - 1 <= IZR (Zpos pm))%R)
          by (rewrite <- minus_IZR; apply IZR_le; lia).
        assert (H2 : (IZR (Zpos pm) <= IZR (Zpos ms) + 1)%R)
          by (rewrite <- plus_IZR; apply IZR_le; lia).
        unfold u64. lra. }
    unfold pi, sigma, F2R. pose proof (bpow_pos (-1074)) as Hbm.
    split; rewrite <- Rmult_assoc; apply Rmult_le_compat_r; lra. }
  assert (En : Prim2SF (PrimFloat.sqrt s) = S754_finite false mn en)
    by (rewrite sqrt_spec, Hs; exact Hn).
  assert (Ep : Prim2SF (PrimFloat.sqrt s * PrimFloat.sqrt s)
               = S754_finite false pm (-1074))
    by (rewrite mul_spec, En; exact Hp).
  assert (Er : Prim2SF (s / (PrimFloat.sqrt s * PrimFloat.sqrt s))
               = S754_finite false mr er)
    by (rewrite div_spec, Hs, Ep; exact Hr).
  split.
  - rewrite FloatAxioms.eqb_spec, En. reflexivity.
  - apply (near_one_float _ mr er Er Hmr).
    apply (ratio_near_one sigma pi _ (1 - 4 * u64) (1 + 4 * u64));
      [exact Hsig|unfold u64; lra|unfold u64; lra|unfold u64; lra
      |exact Hpi|exact Hrho].
Qed.

(** A positive finite number is normal or subnormal. *)
Lemma positive_finite_classify (s : float) :
  ((0 <? s) && (s <? infinity))%float = true ->
  classify s = PNormal \/ classify s = PSubn.
Proof.
  rewrite !ltb_spec, classify_spec.
  change (Prim2SF 0) with (S754_zero false).
  change (Prim2SF infinity) with (S754_infinity false).
  destruct (Prim2SF s) as [[]|[]| |[] m e]; try discriminate.
  intros _. unfold SF64classify, SFclassify.
  destruct (Zpos (digits2_pos m) =? prec); auto.
Qed.

Lemma near_one_nan (r : float) : Prim2SF r = S754_nan -> near_one r = false.
Proof.
  intros H. unfold near_one. rewrite !leb_spec, H.
  destruct (SFleb _ S754_nan) eqn:E; [|reflexivity]. discriminate E.
Qed.

Lemma is_nan_spec (r : float) : Prim2SF r = S754_nan -> is_nan r = true.
Proof. intros H. unfold is_nan. now rewrite FloatAxioms.eqb_spec, H. Qed.

(** Outside the positive finite numbers the quotient is not a number,
    unless the number is zero and so is its root. *)
Lemma self_ratio_degenerate (s : float) :
  ((0 <? s) && (s <? infinity))%float = false ->
  let n := PrimFloat.sqrt s in
  (n =? 0)%float = true \/
  ((n =? 0)%float = false /\ Prim2SF (s / (n * n))%float = S754_nan).
Proof.
  rewrite !ltb_spec. cbv zeta.
  rewrite !FloatAxioms.eqb_spec, div_spec, mul_spec, !sqrt_spec.
  change (Prim2SF 0) with (S754_zero false).
  change (Prim2SF infinity) with (S754_infinity false).
  destruct (Prim2SF s) as [[]|[]| |[] m e]; intros H;
    try discriminate H; try (left; reflexivity); right; split; reflexivity.
Qed.

(** *** Self-similarity *)

(** C6, as stated, fails: the square of 2^-600 underflows to zero, so the
    non-zero vector [2^-600] has a computed norm of zero and a similarity
    with itself of 0.0.  The vector has one component: there is one
    product and no order of additions to choose. *)
Lemma cosine_claim_fails_on_underflow :
  ~ cosine_claim [0x1p-600%float] [0x1p-600%float].
Proof.
  intros (_ & H & _). specialize (H eq_refl). vm_compute in H. discriminate H.
Qed.

Example similarity_underflow :
  compute_similarity float64 [0x1p-600%float] [0x1p-600%float] = 0%float.
Proof. vm_compute. reflexivity. Qed.

(** The square of 2^600 overflows: the similarity of [2^600] with itself
    is not a number. *)
Example similarity_overflow :
  PrimFloat.is_nan
    (compute_similarity float64 [0x1p600%float] [0x1p600%float]) = true.
Proof. vm_compute. reflexivity. Qed.

(** A sum of squares that is zero has a norm that is zero. *)
Lemma sqrt_zero (s : float) :
  (s =? 0)%float = true -> (PrimFloat.sqrt s =? 0)%float = true.
Proof.
  rewrite !FloatAxioms.eqb_spec, sqrt_spec.
  destruct (Prim2SF s) as [[]|[]| |[] m e]; try discriminate; reflexivity.
Qed.

(** C6, amended: cosine similarity is the kernel's dot(a,b) divided by the
    product of the two computed norms when the vectors have the same
    length and both computed norms are non-zero; it is 0.0 whenever a
    computed norm is zero -- as it is when a vector's computed sum of
    squares is zero, for a zero vector or for squares that underflow to
    zero -- or the lengths differ, and it never raises (it is a total
    function).  cosineSimilarity(v, v) is within 2^-50 of 1 exactly when
    the computed sum of squares of v is a positive finite binary64 number,
    normal or subnormal, whatever the order in which the kernel adds the
    products; otherwise it is 0.0 (the sum is zero) or not a number (the
    sum has overflowed or is not a number). *)
Theorem compute_similarity_cosine (ddot : Vector -> Vector -> float)
  (a b : Vector) :
  let cosine := compute_similarity (binary64 ddot) in
  let norm := fun v => PrimFloat.sqrt (ddot v v) in
  (length a = length b ->
   (norm a =? 0)%float = false -> (norm b =? 0)%float = false ->
   cosine a b = (ddot a b / (norm a * norm b))%float) /\
  ((norm a =? 0)%float = true \/ (norm b =? 0)%float = true ->
   cosine a b = 0%float) /\
  ((ddot a a =? 0)%float = true \/ (ddot b b =? 0)%float = true ->
   cosine a b = 0%float) /\
  (length a <> length b -> cosine a b = 0%float) /\
  (positive_finite (ddot a a) = true ->
   cosine a a = (ddot a a / (norm a * norm a))%float /\
   near_one (cosine a a) = true /\ close (cosine a a) 1 = true) /\
  (positive_finite (ddot a a) = false ->
   near_one (cosine a a) = false /\
   (cosine a a = 0%float \/ is_nan (cosine a a) = true)).
Proof.
  cbv zeta.
  destruct (compute_similarity_cases (binary64 ddot) a b) as (H1 & H2 & H3).
  destruct (compute_similarity_cases (binary64 ddot) a a) as (_ & Hz & Hq).
  cbn [n_div n_mul n_dot n_sqrt n_eqb n_zero binary64 np_norm num] in *.
  split; [exact H3|]. split; [exact H2|].
  split; [|split; [exact H1|split]].
  - intros [Hs|Hs]; apply H2; [left|right]; now apply sqrt_zero.
  - intros Hpos.
    assert (H : (PrimFloat.sqrt (ddot a a) =? 0)%float = false /\
                near_one (ddot a a / (PrimFloat.sqrt (ddot a a) *
                                      PrimFloat.sqrt (ddot a a))) = true /\
                close (ddot a a / (PrimFloat.sqrt (ddot a a) *
                                   PrimFloat.sqrt (ddot a a))) 1 = true).
    { destruct (positive_finite_classify _ Hpos) as [Hn|Hn];
        [exact (self_ratio_normal _ Hn)|exact (self_ratio_subnormal _ Hn)]. }
    destruct H as (Hnz & Hnear & Hclose).
    rewrite (Hq eq_refl Hnz Hnz). auto.
  - intros Hneg.
    destruct (self_ratio_degenerate _ Hneg) as [Hzero|[Hnz Hnan]].
    + rewrite (Hz (or_introl Hzero)). split; [reflexivity|now left].
    + rewrite (Hq eq_refl Hnz Hnz). split; [now apply near_one_nan|].
      right. now apply is_nan_spec.
Qed.

(** The vector (3, 4), whose sum of squares is 25, and the vector
    (2^-530), whose sum of squares is the subnormal number 2^-1060. *)
Example similarity_positive_finite :
  positive_finite (dot_sum [3%float; 4%float] [3%float; 4%float]) = true /\
  compute_similarity float64 [3%float; 4%float] [3%float; 4%float] = 1%float /\
  positive_finite (dot_sum [0x1p-530%float] [0x1p-530%float]) = true /\
  compute_similarity float64 [0x1p-530%float] [0x1p-530%float] = 1%float.
Proof. vm_compute. repeat split. Qed.


(** ** The vector service *)

(** *** [ensure_collection] *)

Lemma collection_exists_lookup (w : World) (name : string) :
  online w = true ->
  collection_exists w name = is_set (collections w !! name).
Proof.
  intros Hon. unfold collection_exists, client_get_collections. rewrite Hon.
  destruct (collections w !! name) as [c|] eqn:E; simpl.
  - apply existsb_exists. exists name. split; [|apply String.eqb_refl].
    apply in_map_iff. exists (name, c). split; [reflexivity|].
    apply list_elem_of_In. now apply elem_of_map_to_list.
  - apply not_true_is_false. intros H. apply existsb_exists in H.
    destruct H as (n & Hin & Heq). apply String.eqb_eq in Heq. subst n.
    apply in_map_iff in Hin. destruct Hin as ([n c] & Hn & Hin).
    simpl in Hn. subst n. apply list_elem_of_In in Hin.
    apply elem_of_map_to_list in Hin. congruence.
Qed.

Example racing_callers_reports :
  fst (racing_callers empty_world "project_p" 384) = (true, false).
Proof. vm_compute. reflexivity. Qed.

(** C8, as stated, fails: the caller that saw the collection absent and
    finds it created by the other caller reports a failure. *)
Lemma ensure_claim_fails_on_race :
  ~ ensure_claim (snd (ensure_collection empty_world "project_p" 384))
      "project_p" 384.
Proof.
  intros (_ & H).
  assert (Hs : is_Some (collections
                 (snd (ensure_collection empty_world "project_p" 384))
                 !! "project_p"%string))
    by (vm_compute; eauto).
  specialize (H Hs). vm_compute in H. discriminate H.
Qed.

(** C8, amended: while the store is reachable, [ensure_collection] creates
    the named collection when it is absent, leaves the store as it is when
    the collection exists, and reports success in both cases; a creation
    attempt that fails is reported as a failure, also when it fails only
    because the collection exists by now (two callers that both saw it
    absent): the store is left as it is, holding the collection. *)
Theorem ensure_collection_reports (w : World) (name : string) (size : Z) :
  (online w = true ->
   fst (ensure_collection w name size) = true /\
   is_Some (collections (snd (ensure_collection w name size)) !! name) /\
   (is_Some (collections w !! name) ->
    snd (ensure_collection w name size) = w) /\
   (collections w !! name = None ->
    collections (snd (ensure_collection w name size)) =
    <[name := {| vector_size := size; points := ∅ |}]> (collections w))) /\
  (is_Some (collections w !! name) ->
   ensure_collection_after false w name size = (false, w)) /\
  (online w = false -> ensure_collection w name size = (false, w)).
Proof.
  split; [|split].
  - intros Hon. unfold ensure_collection.
    rewrite (collection_exists_lookup w name Hon).
    unfold ensure_collection_after, create_collection, client_create_collection.
    rewrite Hon. destruct (collections w !! name) eqn:E; simpl.
    + split; [reflexivity|]. split; [rewrite E; eauto|].
      split; [reflexivity|discriminate].
    + split; [reflexivity|]. split; [rewrite lookup_insert_eq; eauto|].
      split; [|reflexivity]. intros [c Hc]. discriminate Hc.
  - intros [c Hc]. unfold ensure_collection_after, create_collection,
      client_create_collection. simpl. rewrite Hc.
    now destruct (online w).
  - intros Hoff. unfold ensure_collection, collection_exists,
      client_get_collections, ensure_collection_after, create_collection,
      client_create_collection. now rewrite Hoff.
Qed.

(** *** Upserting with fresh ids *)

Lemma fresh_ids_world {A} (vectors : list A) : forall w,
  online (snd (fresh_ids w vectors)) = online w /\
  collections (snd (fresh_ids w vectors)) = collections w /\
  (uuid_next w <= uuid_next (snd (fresh_ids w vectors)))%N.
Proof.
  induction vectors as [|v vectors IH]; intros w; simpl.
  - repeat split. lia.
  - specialize (IH {| online := online w; collections := collections w;
                      uuid_next := N.succ (uuid_next w) |}).
    destruct (fresh_ids _ vectors) as [ids w2]. simpl in *.
    destruct IH as (H1 & H2 & H3). repeat split; auto. lia.
Qed.

(** Points put under fresh ids: as many more points, and the ids stay
    below the next one to draw. *)
Lemma put_fresh_points (vectors : list Vector) :
  forall (payloads : list (gmap string PyVal)) w
         (m : gmap PointId (Vector * gmap string PyVal)),
  length vectors = length payloads ->
  (forall n x, m !! inl n = Some x -> (n < uuid_next w)%N) ->
  let m' := fold_left put_point
              (zip_points (fst (fresh_ids w vectors)) vectors payloads) m in
  size m' = (size m + length vectors)%nat /\
  (forall n x, m' !! inl n = Some x ->
               (n < uuid_next (snd (fresh_ids w vectors)))%N).
Proof.
  induction vectors as [|v vectors IH]; intros [|p payloads] w m Hl Hm;
    try discriminate; simpl.
  - split; [lia|exact Hm].
  - set (w1 := {| online := online w; collections := collections w;
                  uuid_next := N.succ (uuid_next w) |}).
    specialize (IH payloads w1 (put_point m {| id := inl (uuid_next w);
                                               vector := v; payload := p |})).
    destruct (fresh_ids w1 vectors) as [ids w2] eqn:E. simpl in *.
    assert (Hnone : m !! (inl (uuid_next w) : PointId) = None).
    { destruct (m !! (inl (uuid_next w) : PointId)) as [x|] eqn:Ex;
        [|reflexivity].
      apply Hm in Ex. lia. }
    destruct IH as [IH1 IH2].
    + now inversion Hl.
    + intros n x. unfold put_point. simpl.
      destruct (decide (n = uuid_next w)) as [->|Hne].
      * intros _. lia.
      * rewrite lookup_insert_ne by congruence. intros H. apply Hm in H. lia.
    + split; [|exact IH2]. rewrite IH1. unfold put_point. simpl.
      rewrite map_size_insert_None by exact Hnone. lia.
Qed.

(** [add_vectors] without ids, when the upsert is accepted. *)
Lemma add_vectors_appends (w w' : World) (name : string)
  (vectors : list Vector) (payloads : list (gmap string PyVal)) :
  uuids_fresh w -> length vectors = length payloads ->
  add_vectors w name vectors payloads None = (true, w') ->
  uuids_fresh w' /\ count w' name = (count w name + length vectors)%nat.
Proof.
  intros Hf Hl. unfold add_vectors.
  destruct (fresh_ids_world vectors w) as (Hon & Hcs & Hnext).
  pose proof (put_fresh_points vectors payloads w) as Hput.
  destruct (fresh_ids w vectors) as [ids w1] eqn:E. simpl in *.
  unfold client_upsert. rewrite Hon, Hcs.
  destruct (online w); [|discriminate].
  destruct (collections w !! name) as [c|] eqn:Ec; [|discriminate].
  destruct (forallb _ _); [|discriminate].
  intros H. inversion H; subst w'. clear H.
  destruct (Hput (points c) Hl) as [Hsize Hids].
  { intros n x. apply (Hf name c n x Ec). }
  split.
  - intros name' c' n x. simpl.
    destruct (decide (name' = name)) as [->|Hne].
    + rewrite lookup_insert_eq. intros Hc'. inversion Hc'; subst c'. simpl.
      apply Hids.
    + rewrite lookup_insert_ne by congruence. intros Hc' Hx.
      specialize (Hf name' c' n x Hc' Hx). lia.
  - unfold count at 1. simpl. rewrite lookup_insert_eq. simpl.
    unfold count. rewrite Ec. exact Hsize.
Qed.

Lemma ensure_collection_keeps (w : World) (name : string) (size : Z) :
  uuids_fresh w ->
  uuids_fresh (snd (ensure_collection w name size)) /\
  count (snd (ensure_collection w name size)) name = count w name.
Proof.
  intros Hf. unfold ensure_collection, ensure_collection_after.
  destruct (collection_exists w name); simpl; [now split|].
  unfold create_collection, client_create_collection.
  destruct (online w); [|now split].
  destruct (collections w !! name) as [c|] eqn:Ec; [now split|]. simpl. split.
  - intros name' c' n x. simpl.
    destruct (decide (name' = name)) as [->|Hne].
    + rewrite lookup_insert_eq. intros Hc'. inversion Hc'; subst c'. simpl.
      rewrite lookup_empty. discriminate.
    + rewrite lookup_insert_ne by congruence. apply Hf.
  - unfold count. simpl. rewrite lookup_insert_eq, Ec. simpl.
    apply map_size_empty.
Qed.

(** ** The code service *)

(** *** What an indexing run embeds *)

Lemma embed_chunks_spec (svc : EmbeddingService) (project_id file_path : string)
  (chunks : list Chunk) : forall acc,
  embed_chunks svc project_id file_path chunks acc =
  (fst acc ++ map fst (embedded_prefix svc project_id file_path chunks),
   snd acc ++ map snd (embedded_prefix svc project_id file_path chunks)).
Proof.
  induction chunks as [|c chunks IH]; intros [vs ps]; simpl.
  - now rewrite !app_nil_r.
  - destruct (fst (embed_text svc (text c) None false)) as [v|e]; simpl.
    + rewrite IH. simpl. now rewrite <- !app_assoc.
    + now rewrite !app_nil_r.
Qed.

Lemma process_files_spec (fs : FileSystem) (svc : EmbeddingService)
  (project_id : string) (files : list string) : forall acc,
  fold_left (process_file fs svc project_id) files acc =
  (fst acc ++ map fst (flat_map (file_embeddings fs svc project_id) files),
   snd acc ++ map snd (flat_map (file_embeddings fs svc project_id) files)).
Proof.
  induction files as [|f files IH]; intros [vs ps]; simpl.
  - now rewrite !app_nil_r.
  - rewrite IH. unfold process_file, file_embeddings.
    destruct (read_text fs f) as [content|e]; simpl; [|reflexivity].
    rewrite embed_chunks_spec. simpl. now rewrite !map_app, !app_assoc.
Qed.

Lemma embedded_prefix_all (svc : EmbeddingService) (project_id file_path : string)
  (chunks : list Chunk) :
  List.Forall (fun c => exists v, fst (embed_text svc (text c) None false) = Ok v)
         chunks ->
  map snd (embedded_prefix svc project_id file_path chunks) =
  map (chunk_payload project_id file_path) chunks.
Proof.
  induction 1 as [|c chunks [v Hv] _ IH]; simpl; [reflexivity|].
  rewrite Hv. simpl. now rewrite IH.
Qed.

(** [index_project] once the files are found and the dimension known. *)
Lemma index_project_run (w : World) (fs : FileSystem) (svc : EmbeddingService)
  (project_path project_id : string) (file_patterns code_files : list string)
  (dim : Z) :
  find_code_files fs project_path (effective_patterns file_patterns) []
    = Ok code_files ->
  get_embedding_dimension svc false None = Ok dim ->
  index_project w fs svc project_path project_id file_patterns =
  add_vectors
    (snd (ensure_collection w ("project_" +:+ project_id) dim))
    ("project_" +:+ project_id)
    (map fst (flat_map (file_embeddings fs svc project_id) code_files))
    (map snd (flat_map (file_embeddings fs svc project_id) code_files))
    None.
Proof.
  intros Hfiles Hdim. unfold index_project. rewrite Hfiles.
  rewrite process_files_spec. simpl fst. simpl snd. rewrite !app_nil_l.
  rewrite Hdim.
  now destruct (ensure_collection w ("project_" +:+ project_id) dim).
Qed.

Lemma add_vectors_upsert (w : World) (name : string) (vectors : list Vector)
  (payloads : list (gmap string PyVal)) :
  fst (add_vectors w name vectors payloads None) = true <->
  exists w2,
    client_upsert (snd (fresh_ids w vectors)) name
      (zip_points (fst (fresh_ids w vectors)) vectors payloads) = Ok w2.
Proof.
  unfold add_vectors. destruct (fresh_ids w vectors) as [ids w1]. simpl.
  destruct (client_upsert w1 name _) as [w2|e]; simpl; split.
  - eauto.
  - reflexivity.
  - discriminate.
  - intros [w2 H]. discriminate.
Qed.

(** *** [index_project] *)

(** C2, as stated, fails: the second chunk of the file is not embedded, the
    file's processing stops there, and its first chunk is sent to the store
    all the same. *)
Lemma indexing_claim_fails_on_partial_file :
  ~ indexing_claim empty_world two_files picky_service "/p" "p" [].
Proof.
  intros H.
  destruct (H ["/p/a.py"; "/p/b.py"]%string eq_refl) as [Hskip _].
  specialize (Hskip "/p/a.py"%string (or_introl eq_refl)).
  assert (Hfail : file_fails two_files picky_service "/p/a.py").
  { unfold file_fails. simpl read_text. cbv iota.
    apply List.Exists_exists.
    exists (code_block [EmptyString] 51 51). split.
    - vm_compute. right. left. reflexivity.
    - eexists. vm_compute. reflexivity. }
  specialize (Hskip Hfail).
  assert (E : snd (fold_left (process_file two_files picky_service "p")
                     ["/p/a.py"; "/p/b.py"]%string ([], []))
              = [chunk_payload "p" "/p/a.py"
                   (code_block (repeat "x"%string 50) 1 50)])
    by (vm_compute; reflexivity).
  rewrite E in Hskip. apply List.Forall_inv in Hskip.
  apply Hskip. vm_compute. reflexivity.
Qed.

Example index_project_partial_file :
  let r := index_project empty_world two_files picky_service "/p" "p" [] in
  fst r = true /\ count (snd r) "project_p" = 1%nat.
Proof. vm_compute. split; reflexivity. Qed.

(** No file to process: zero vectors are upserted and the run succeeds. *)
Example index_project_no_files :
  let r := index_project empty_world no_files local_only_service "/p" "p" [] in
  fst r = true /\ count (snd r) "project_p" = 0%nat.
Proof. vm_compute. split; reflexivity. Qed.

(** The patterns are refused: the run reports a failure and upserts nothing. *)
Example index_project_bad_pattern :
  index_project empty_world bad_pattern local_only_service "/p" "p" [EmptyString]
  = (false, empty_world).
Proof. reflexivity. Qed.

(** The store is unreachable: the upsert fails and so does the run. *)
Example index_project_unreachable :
  fst (index_project {| online := false; collections := ∅; uuid_next := 0 |}
         no_files local_only_service "/p" "p" []) = false.
Proof. vm_compute. reflexivity. Qed.

(** C2, amended: a failure while processing a file is caught and the rest
    of that file is skipped without aborting the run -- an unreadable file
    adds nothing to the batch, a file with a chunk whose embedding fails
    adds the chunks before that one -- and every other file is processed;
    once the files are enumerated and the embedding dimension is known, the
    run returns true iff the single final upsert call succeeded, whatever
    was skipped and also for zero files; it returns false on upsert failure,
    and without any upsert when the enumeration or the dimension query
    raises. *)
Theorem index_project_best_effort (w : World) (fs : FileSystem)
  (svc : EmbeddingService) (project_path project_id : string)
  (file_patterns : list string) :
  let name := ("project_" +:+ project_id)%string in
  let run := index_project w fs svc project_path project_id file_patterns in
  (forall code_files dim,
     find_code_files fs project_path (effective_patterns file_patterns) []
       = Ok code_files ->
     get_embedding_dimension svc false None = Ok dim ->
     let batch := flat_map (file_embeddings fs svc project_id) code_files in
     let w1 := snd (ensure_collection w name dim) in
     fold_left (process_file fs svc project_id) code_files ([], [])
       = (map fst batch, map snd batch) /\
     run = add_vectors w1 name (map fst batch) (map snd batch) None /\
     (fst run = true <->
      exists w2,
        client_upsert (snd (fresh_ids w1 (map fst batch))) name
          (zip_points (fst (fresh_ids w1 (map fst batch)))
                      (map fst batch) (map snd batch)) = Ok w2)) /\
  (forall file_path e,
     read_text fs file_path = Raise e ->
     file_embeddings fs svc project_id file_path = []) /\
  (forall file_path content,
     read_text fs file_path = Ok content ->
     file_embeddings fs svc project_id file_path =
       embedded_prefix svc project_id file_path (_chunk_code content file_path) /\
     (List.Forall (fun c => exists v,
                fst (embed_text svc (text c) None false) = Ok v)
             (_chunk_code content file_path) ->
      map snd (file_embeddings fs svc project_id file_path) =
      map (chunk_payload project_id file_path)
          (_chunk_code content file_path))) /\
  ((exists e, find_code_files fs project_path
                (effective_patterns file_patterns) [] = Raise e) \/
   (exists e, get_embedding_dimension svc false None = Raise e) ->
   run = (false, w)).
Proof.
  cbv zeta. split; [|split; [|split]].
  - intros code_files dim Hfiles Hdim. split; [|split].
    + rewrite process_files_spec. reflexivity.
    + now apply index_project_run.
    + rewrite (index_project_run _ _ _ _ _ _ _ _ Hfiles Hdim).
      apply add_vectors_upsert.
  - intros file_path e He. unfold file_embeddings. now rewrite He.
  - intros file_path content Hc. unfold file_embeddings. rewrite Hc.
    split; [reflexivity|]. apply embedded_prefix_all.
  - intros [[e He]|[e He]]; unfold index_project.
    + now rewrite He.
    + destruct (find_code_files _ _ _ _) as [files|]; [|reflexivity].
      destruct (fold_left _ files _) as [vs ps]. now rewrite He.
Qed.

(** *** Indexing twice *)

(** C9, as stated, fails: two runs over a project without a matching file
    both succeed and both leave the collection empty. *)
Lemma reindex_claim_fails_without_files :
  ~ reindex_claim empty_world no_files local_only_service "/p" "p" [].
Proof.
  unfold reindex_claim. cbv zeta.
  set (r1 := index_project empty_world no_files local_only_service "/p" "p" []).
  set (r2 := index_project (snd r1) no_files local_only_service "/p" "p" []).
  assert (E1 : count (snd r1) ("project_" +:+ "p") = 0%nat)
    by (vm_compute; reflexivity).
  assert (E2 : count (snd r2) ("project_" +:+ "p") = 0%nat)
    by (vm_compute; reflexivity).
  rewrite E1, E2. lia.
Qed.

Example reindex_without_files_succeeds :
  let r1 := index_project empty_world no_files local_only_service "/p" "p" [] in
  let r2 := index_project (snd r1) no_files local_only_service "/p" "p" [] in
  fst r1 = true /\ fst r2 = true.
Proof. vm_compute. split; reflexivity. Qed.

Lemma index_project_appends (w w' : World) (fs : FileSystem)
  (svc : EmbeddingService) (project_path project_id : string)
  (file_patterns : list string) :
  uuids_fresh w ->
  index_project w fs svc project_path project_id file_patterns = (true, w') ->
  uuids_fresh w' /\
  count w' ("project_" +:+ project_id) =
  (count w ("project_" +:+ project_id) +
   length (project_vectors fs svc project_path project_id file_patterns))%nat.
Proof.
  intros Hf Hrun. unfold project_vectors.
  destruct (find_code_files fs project_path (effective_patterns file_patterns) [])
    as [code_files|e] eqn:Hfiles.
  2:{ unfold index_project in Hrun. rewrite Hfiles in Hrun. discriminate. }
  destruct (get_embedding_dimension svc false None) as [dim|e] eqn:Hdim.
  2:{ unfold index_project in Hrun. rewrite Hfiles, Hdim in Hrun.
      destruct (fold_left _ code_files _); discriminate. }
  rewrite (index_project_run _ _ _ _ _ _ _ _ Hfiles Hdim) in Hrun.
  destruct (ensure_collection_keeps w ("project_" +:+ project_id) dim Hf)
    as [Hf1 Hc1].
  apply add_vectors_appends in Hrun; [|exact Hf1|now rewrite !length_map].
  destruct Hrun as [Hf' Hc']. split; [exact Hf'|].
  rewrite Hc', Hc1, process_files_spec. reflexivity.
Qed.

(** C9, amended: with the ids omitted, [add_vectors] draws a fresh id for
    every point, so each of two successful runs over an unchanged project
    adds as many points to the collection as the project has embedded
    chunks: the stored count strictly increases on the second run when at
    least one chunk is embedded, and stays the same when none is. *)
Theorem reindexing_appends (w w1 w2 : World) (fs : FileSystem)
  (svc : EmbeddingService) (project_path project_id : string)
  (file_patterns : list string) :
  uuids_fresh w ->
  index_project w fs svc project_path project_id file_patterns = (true, w1) ->
  index_project w1 fs svc project_path project_id file_patterns = (true, w2) ->
  let name := ("project_" +:+ project_id)%string in
  let n := length (project_vectors fs svc project_path project_id file_patterns) in
  count w1 name = (count w name + n)%nat /\
  count w2 name = (count w1 name + n)%nat /\
  (n <> 0%nat -> (count w1 name < count w2 name)%nat) /\
  (n = 0%nat -> count w2 name = count w1 name).
Proof.
  intros Hf H1 H2. cbv zeta.
  destruct (index_project_appends _ _ _ _ _ _ _ Hf H1) as [Hf1 Hc1].
  destruct (index_project_appends _ _ _ _ _ _ _ Hf1 H2) as [_ Hc2].
  repeat split; try assumption; lia.
Qed.

Lemma empty_world_fresh : uuids_fresh empty_world.
Proof. intros name c n x H. simpl in H. rewrite lookup_empty in H. discriminate. Qed.

(** Two runs over a project with one readable file of two chunks. *)
Lemma reindexing_appends_witness :
  let r1 := index_project empty_world two_files local_only_service "/p" "p" [] in
  let r2 := index_project (snd r1) two_files local_only_service "/p" "p" [] in
  count (snd r1) ("project_" +:+ "p") = 2%nat /\
  count (snd r2) ("project_" +:+ "p") = 4%nat.
Proof.
  cbv zeta.
  set (r1 := index_project empty_world two_files local_only_service "/p" "p" []).
  set (r2 := index_project (snd r1) two_files local_only_service "/p" "p" []).
  assert (H1 : r1 = (true, snd r1)) by (vm_compute; reflexivity).
  assert (H2 : r2 = (true, snd r2)) by (vm_compute; reflexivity).
  destruct (reindexing_appends empty_world (snd r1) (snd r2) two_files
              local_only_service "/p" "p" [] empty_world_fresh H1 H2)
    as (Hc1 & Hc2 & _).
  split; [rewrite Hc1|rewrite Hc2, Hc1]; reflexivity.
Defined.

(** *** [_get_relevant_context] *)

Section Context.

Variable store_score : Vector -> Vector -> float.

Lemma StronglySorted_weaken {A} (R S : A -> A -> Prop) (l : list A) :
  (forall p q, R p q -> S p q) -> StronglySorted R l -> StronglySorted S l.
Proof.
  intros HRS. induction 1 as [|x l _ IH Hx]; constructor; [exact IH|].
  rewrite List.Forall_forall in Hx |- *. auto.
Qed.

Lemma StronglySorted_trivial {A} (l : list A) :
  StronglySorted (fun _ _ => True) l.
Proof.
  induction l; constructor; auto. rewrite List.Forall_forall. auto.
Qed.

(** What the store's search returns. *)
Lemma client_search_spec (w : World) (name : string) (query : Vector)
  (limit : Z) (threshold : float) (hits : list ScoredPoint) :
  client_search store_score w name query limit (Some threshold) None = Ok hits ->
  exists c,
    online w = true /\ collections w !! name = Some c /\
    (0 <= limit -> len hits <= limit) /\
    List.Forall (fun h =>
              (threshold <=? score h)%float = true /\
              exists v, points c !! hit_id h = Some (v, hit_payload h) /\
                        score h = store_score query v) hits /\
    (consistent float64 (stored_scores store_score c query) ->
     StronglySorted (fun p q => (score p <? score q)%float = false) hits).
Proof.
  unfold client_search. destruct (online w); [|discriminate].
  destruct (collections w !! name) as [c|]; [|discriminate].
  intros H. inversion H as [Hhits]. clear H. exists c.
  split; [reflexivity|]. split; [reflexivity|].
  set (scored := map _ (map_to_list (points c))) in *.
  set (passing := List.filter _ scored) in *.
  assert (Hin : forall h, In h (sort_reverse float64 score passing) ->
                          In h passing).
  { intros h Hh. unfold sort_reverse in Hh. apply in_rev in Hh.
    apply sort_by_In in Hh. now apply in_rev in Hh. }
  split; [|split].
  - intros Hl. unfold len. rewrite length_firstn. lia.
  - rewrite List.Forall_forall. intros h Hh. apply firstn_In in Hh.
    apply Hin in Hh. apply filter_In in Hh. destruct Hh as [Hs Hp].
    rewrite andb_true_r in Hp. split; [exact Hp|].
    apply in_map_iff in Hs. destruct Hs as ([i [v pl]] & <- & Hkv).
    simpl. exists v. split; [|reflexivity].
    apply list_elem_of_In in Hkv. now apply elem_of_map_to_list in Hkv.
  - intros Hc. apply StronglySorted_firstn. unfold sort_reverse.
    assert (Hs : StronglySorted
                   (ascending float64 _ score (fun _ _ => True))
                   (sort_by float64 score (rev passing))).
    { apply (sort_by_sorted float64 _ score _ (stored_scores store_score c query));
        [exact Hc| |apply StronglySorted_trivial].
      rewrite List.Forall_forall. intros h Hh. apply in_rev in Hh.
      apply filter_In in Hh. destruct Hh as [Hh _].
      apply in_map_iff in Hh. destruct Hh as (kv & <- & Hkv). simpl.
      unfold stored_scores. now apply (in_map (fun kv => store_score query (fst (snd kv)))). }
    apply StronglySorted_rev in Hs.
    eapply StronglySorted_weaken; [|exact Hs].
    intros p q [Hpq _]. exact Hpq.
Qed.

Lemma context_snippets_texts (hits : list ScoredPoint) :
  List.Forall (fun h => forall n, hit_payload h !! "text"%string = Some (PInt n) ->
                             n = 0) hits ->
  context_snippets hits = map PStr (kept_texts hits).
Proof.
  induction 1 as [|h hits Hh _ IH]; simpl; [reflexivity|].
  rewrite map_app, <- IH. f_equal.
  destruct (hit_payload h !! "text"%string) as [[[|c s]|n]|]; simpl;
    try reflexivity.
  rewrite (Hh n eq_refl). reflexivity.
Qed.

Lemma py_join_strings (sep : string) (l : list string) :
  py_join sep (map PStr l) = Ok (String.concat sep l).
Proof.
  unfold py_join. assert (E : all_str (map PStr l) = Ok l).
  { induction l as [|s l IH]; simpl; [reflexivity|]. now rewrite IH. }
  now rewrite E.
Qed.

(** A snippet that is not a string makes the join raise. *)
Lemma py_join_number (sep : string) (items : list PyVal) (n : Z) :
  In (PInt n) items -> exists e, py_join sep items = Raise e.
Proof.
  intros Hin. unfold py_join.
  assert (E : exists e, all_str items = Raise e).
  { induction items as [|v items IH]; [contradiction|].
    destruct Hin as [-> | Hin]; simpl; [eauto|].
    destruct v as [s|k]; [|eauto].
    destruct (IH Hin) as [e ->]. eauto. }
  destruct E as [e ->]. eauto.
Qed.

Lemma context_snippets_number (hits : list ScoredPoint) :
  List.Exists (fun h => exists n,
            hit_payload h !! "text"%string = Some (PInt n) /\ n <> 0) hits ->
  exists n, In (PInt n) (context_snippets hits).
Proof.
  intros H. apply List.Exists_exists in H. destruct H as (h & Hh & n & Hn & Hnz).
  exists n. unfold context_snippets. apply in_flat_map. exists h.
  split; [exact Hh|]. rewrite Hn. simpl.
  destruct (Z.eqb_spec n 0); [contradiction|]. now left.
Qed.

End Context.

Example relevant_context_snippets :
  _get_relevant_context (compute_similarity float64) snippets_world
    local_only_service "a" "python" = "def f(): pass"%string.
Proof. vm_compute. reflexivity. Qed.

(** C3, as stated, fails: a kept result whose text payload is empty is left
    out of the context, blank line and all. *)
Lemma context_claim_fails_on_empty_text :
  ~ context_claim (compute_similarity float64) snippets_world
      local_only_service "a" "python".
Proof.
  intros H. specialize (H [1%float; 0%float] eq_refl).
  vm_compute in H. discriminate H.
Qed.

(** A text that is a number: the join raises and the text of the other
    result is lost with it. *)
Example relevant_context_number :
  kept_texts
    (search_vectors (compute_similarity float64) numbers_world
       "code_embeddings" [1%float; 0%float] 3 (Some threshold_0_7) None)
    = ["abc"%string] /\
  _get_relevant_context (compute_similarity float64) numbers_world
    local_only_service "a" "python" = EmptyString.
Proof. vm_compute. split; reflexivity. Qed.

(** Nothing stored, nothing reachable: the context is empty. *)
Example relevant_context_empty_index :
  _get_relevant_context (compute_similarity float64) empty_world
    local_only_service "a" "python" = EmptyString /\
  _get_relevant_context (compute_similarity float64)
    {| online := false; collections := ∅; uuid_next := 0 |}
    local_only_service "a" "python" = EmptyString /\
  _get_relevant_context (compute_similarity float64) snippets_world
    unconfigured_service "a" "python" = EmptyString.
Proof. vm_compute. repeat split. Qed.

(** C3, amended: context retrieval embeds the query with the local
    strategy and searches the collection "code_embeddings" for at most 3
    results with a score at or above 0.7.  When every text payload among
    the results is a string (or a falsy value), it returns the non-empty
    text payloads of the results (a result without a text, or with an empty
    one, is left out), one blank line between two of them, in the order of
    the results, which is non-increasing in score when the store's scores
    are consistently ordered.  When some result carries a truthy text that
    is not a string (a non-zero number), the join raises [TypeError], the
    exception is caught and the context is the empty string, the other
    snippets being lost.  It also returns the empty string when there is no
    result (nothing clears the threshold, the collection is empty or
    missing, the store is unreachable) and when the embedding fails; it
    never raises (it is a total function). *)
Theorem relevant_context_spec (store_score : Vector -> Vector -> float)
  (w : World) (svc : EmbeddingService) (query language : string) :
  let ctx := _get_relevant_context store_score w svc query language in
  ((exists e, fst (embed_text svc query None false) = Raise e) ->
   ctx = EmptyString) /\
  (forall query_embedding,
     fst (embed_text svc query None false) = Ok query_embedding ->
     let hits := search_vectors store_score w "code_embeddings"
                   query_embedding 3 (Some threshold_0_7) None in
     len hits <= 3 /\
     List.Forall (fun h => (threshold_0_7 <=? score h)%float = true) hits /\
     (forall c,
        collections w !! "code_embeddings"%string = Some c ->
        consistent float64 (stored_scores store_score c query_embedding) ->
        StronglySorted (fun p q => (score p <? score q)%float = false) hits) /\
     (List.Forall (fun h => forall n,
                hit_payload h !! "text"%string = Some (PInt n) -> n = 0) hits ->
      ctx = String.concat BLANK (kept_texts hits)) /\
     (List.Exists (fun h => exists n,
                hit_payload h !! "text"%string = Some (PInt n) /\ n <> 0) hits ->
      ctx = EmptyString) /\
     (hits = [] -> ctx = EmptyString) /\
     (online w = false \/
      collections w !! "code_embeddings"%string = None \/
      (exists c, collections w !! "code_embeddings"%string = Some c /\
                 points c = ∅) ->
      hits = [])).
Proof.
  cbv zeta. split.
  - intros [e He]. unfold _get_relevant_context. now rewrite He.
  - intros qe Hqe. unfold _get_relevant_context. rewrite Hqe.
    unfold search_vectors.
    destruct (client_search store_score w "code_embeddings" qe 3
                (Some threshold_0_7) None) as [hits|e] eqn:Hs.
    + destruct (client_search_spec store_score _ _ _ _ _ _ Hs)
        as (c & Hon & Hc & Hlen & Hall & Hsorted).
      split; [apply Hlen; lia|]. split.
      { eapply List.Forall_impl; [|exact Hall]. simpl. tauto. }
      split.
      { intros c' Hc'. rewrite Hc in Hc'. inversion Hc'; subst c'.
        exact Hsorted. }
      split.
      { intros Htexts. rewrite (context_snippets_texts hits Htexts).
        now rewrite py_join_strings. }
      split.
      { intros Hnum. destruct (context_snippets_number hits Hnum) as [n Hn].
        now destruct (py_join_number BLANK _ n Hn) as [e ->]. }
      split.
      { intros ->. reflexivity. }
      intros [Hoff|[Hnone|(c' & Hc' & Hempty)]].
      * rewrite Hoff in Hon. discriminate.
      * rewrite Hnone in Hc. discriminate.
      * rewrite Hc in Hc'. inversion Hc'; subst c'.
        unfold client_search in Hs. rewrite Hon, Hc, Hempty in Hs.
        rewrite map_to_list_empty in Hs. simpl in Hs. inversion Hs.
        now destruct (Z.to_nat 3).
    + split; [unfold len; simpl; lia|]. split; [constructor|].
      split; [constructor|]. split; [reflexivity|].
      split; [reflexivity|]. split; reflexivity.
Qed.
